(** * A shallow embedding of the Pratt-parsing demo (tdop.py)

    The development follows the layout of the Python module:

    - tokens, the lexical grammar [TOKEN_RE] and [re.findall];
    - [TokenStream], a generator that shares the mutable attribute
      [current] with its owner;
    - [Node], [RuleMap] with its two registration decorators;
    - [eat] and the precedence-climbing driver [parse].

    Python [int] is unbounded, so integers are [Z].  A Python [str] is
    modelled by [string]; a character of [string] stands for the code
    point of the same number, so the texts covered are those over code
    points 0..255.  Dictionaries keyed by token type are [gmap string]. *)

From Stdlib Require Import ZArith Ascii String List Lia Bool.
From stdpp Require Import base option list gmap strings pretty.

Local Open Scope string_scope.
Local Open Scope list_scope.
Local Open Scope Z_scope.
Local Set Warnings "-register-all".

(** ** Characters and regular-expression classes *)

(** The code point of a character. *)
Definition code (c : ascii) : nat := nat_of_ascii c.

Definition between (lo hi : nat) (c : ascii) : bool :=
  (lo <=? code c)%nat && (code c <=? hi)%nat.

(** [\s] on a [str] pattern: Unicode white space.  Below 256 these are
    TAB..CR, FS..US, SPACE, NEL (0x85) and NBSP (0xA0). *)
Definition is_space (c : ascii) : bool :=
  between 9 13 c || between 28 32 c || between 133 133 c || between 160 160 c.

(** [\d] on a [str] pattern: Unicode decimal digits, which below 256
    are the ten ASCII digits. *)
Definition is_digit (c : ascii) : bool := between 48 57 c.

(** [\w] on a [str] pattern: alphanumeric code points and the
    underscore.  Below 256 the alphanumerics are the ASCII letters and
    digits, the ordinal indicators, the micro sign, the superscripts
    one to three, the vulgar fractions and the accented Latin-1
    letters. *)
Definition is_word (c : ascii) : bool :=
  is_digit c || between 65 90 c || between 97 122 c || between 95 95 c
  || between 170 170 c || between 178 179 c || between 181 181 c
  || between 185 186 c || between 188 190 c
  || between 192 214 c || between 216 246 c || between 248 255 c.

Fixpoint mem (c : ascii) (cls : string) : bool :=
  match cls with
  | EmptyString => false
  | String d cls' => Ascii.eqb c d || mem c cls'
  end.

(** The class [[\-\+\*/%!~<>=&^|?:,]]. *)
Definition is_op (c : ascii) : bool := mem c "-+*/%!~<>=&^|?:,".

(** The class [[\(\)\[\]]]. *)
Definition is_bracket (c : ascii) : bool := mem c "()[]".

(** ** Tokens *)

(** [Token.val] is a [Union[str, int]]. *)
Inductive value : Type :=
| VStr (text : string)
| VInt (n : Z).

(** The dataclass [Token]; equality of records is the dataclass's
    generated [__eq__] (field by field). *)
Record Token : Type := mkToken {
  type : string;
  val : value;
  loc : option (Z * Z)
}.

(** [str] of a token value: the text itself, or the decimal numeral. *)
Definition str_value (v : value) : string :=
  match v with
  | VStr text => text
  | VInt n => pretty n
  end.

(** [Token.__repr__], which [str] and the [%s] and [%r] conversions all
    reach. *)
Definition Token_repr (t : Token) : string :=
  "<Token " +:+ type t +:+ " " +:+ str_value (val t) +:+ ">".

Definition EOF_TOKEN : Token := mkToken "eof" (VStr "eof") None.

(** The default of the [current] field of a fresh [TokenStream]. *)
Definition ERROR_TOKEN : Token := mkToken "<ERROR>" (VStr "<ERROR>") None.

(** ** The lexical grammar: [TOKEN_RE] and [findall] *)

(** The longest prefix of [text] whose characters satisfy [p], and the
    rest: what a greedy [p+] or [p*] consumes when nothing after it in
    the pattern can make it give characters back. *)
Fixpoint span (p : ascii -> bool) (text : string) : string * string :=
  match text with
  | EmptyString => (EmptyString, EmptyString)
  | String c text' =>
      if p c then
        let (run, rest) := span p text' in (String c run, rest)
      else (EmptyString, text)
  end.

(** The groups of one match, as [findall] returns them for a pattern
    with four groups: a group that did not take part is [""]. *)
Definition item : Type := (string * string * string * string)%type.

(** One attempt to match [TOKEN_RE] at the start of [text]: the groups
    and the text after the match.  [\s*] takes the white space; the
    alternatives are tried in order on what follows.  Giving back white
    space cannot help, since no alternative starts with a white-space
    character, and every alternative ends the pattern, so each run is
    maximal. *)
Definition match_at (text : string) : option (item * string) :=
  let body := snd (span is_space text) in
  match body with
  | EmptyString => None
  | String c body' =>
      if is_digit c then
        let (run, rest) := span is_digit body in
        Some ((run, "", "", ""), rest)
      else if is_word c then
        let (run, rest) := span is_word body in
        Some (("", run, "", ""), rest)
      else if is_op c then
        let (run, rest) := span is_op body in
        Some (("", "", run, ""), rest)
      else if is_bracket c then
        Some (("", "", "", String c EmptyString), body')
      else None
  end.

(** The scan of [findall]: match at the current position and go on
    after the match, or, when there is no match here, try one character
    further.  No match of [TOKEN_RE] is empty, so each round shortens
    the text; [fuel] bounds the rounds. *)
Fixpoint scan (fuel : nat) (text : string) : list item :=
  match fuel with
  | O => []
  | S fuel' =>
      match match_at text with
      | Some (it, rest) => it :: scan fuel' rest
      | None =>
          match text with
          | EmptyString => []
          | String _ text' => scan fuel' text'
          end
      end
  end.

(** [TOKEN_RE.findall(s)]. *)
Definition findall (text : string) : list item :=
  scan (S (String.length text)) text.

(** [int] on a run of ASCII digits: the number the digits write, read
    from the left.  (The interpreter's configurable limit on the number
    of digits [int] accepts is not part of the module and is not
    modelled.) *)
Fixpoint int_digits (acc : Z) (digits : string) : Z :=
  match digits with
  | EmptyString => acc
  | String c digits' => int_digits (10 * acc + (Z.of_nat (code c) - 48)) digits'
  end.

Definition int (digits : string) : Z := int_digits 0 digits.

(** Truth value of a [str]. *)
Definition nonempty (text : string) : bool :=
  match text with
  | EmptyString => false
  | String _ _ => true
  end.

(** The [if]/[elif] chain of [_make_stream]: the values it assigns to
    [typ] and [val], or [None] when no branch is taken (the chain has no
    [else]). *)
Definition classify (it : item) : option (string * value) :=
  let '(g0, g1, g2, g3) := it in
  if nonempty g0 then Some ("number", VInt (int g0))
  else if nonempty g1 then Some ("name", VStr g1)
  else if nonempty g2 then Some (g2, VStr g2)
  else if nonempty g3 then Some (g3, VStr g3)
  else None.

(** ** Exceptions and results *)

(** The exceptions the module raises: [ParseError] with its message,
    the [StopIteration] of an exhausted generator, the
    [UnboundLocalError] of reading [typ] before any branch assigned it;
    [OtherException] stands for whatever else a handler supplied by a
    grammar raises. *)
Inductive exn : Type :=
| ParseError (msg : string)
| StopIteration
| UnboundLocalError
| OtherException (descr : string).

Inductive outcome (A : Type) : Type :=
| Return (a : A)
| Raise (e : exn).

Arguments Return {A} a.
Arguments Raise {A} e.

(** ** The token stream *)

(** Where the generator made by [_make_stream] is suspended.  Its frame
    holds the items [findall] returned that the [for] loop has not
    visited yet, and the locals [typ] and [val] ([None] while they are
    unbound). *)
Inductive generator : Type :=
| GenCreated
| GenInLoop (pending : list item) (typ_val : option (string * value))
| GenAfterLoop
| GenDone.

(** The dataclass [TokenStream].  The generator body reads and assigns
    [self.current], so one record carries both the attribute and the
    generator's state, and every operation returns the updated record. *)
Record TokenStream : Type := mkTokenStream {
  s : string;
  current : Token;
  _stream : generator
}.

Definition set_current (ts : TokenStream) (t : Token) (g : generator) : TokenStream :=
  mkTokenStream (s ts) t g.

(** One round of the [for] loop of [_make_stream], from the point where
    the iterator hands out the next item (or is exhausted) to the next
    [yield]. *)
Definition loop_round (ts : TokenStream) (pending : list item)
    (typ_val : option (string * value)) : outcome Token * TokenStream :=
  match pending with
  | it :: pending' =>
      let typ_val' :=
        match classify it with
        | Some tv => Some tv
        | None => typ_val
        end in
      match typ_val' with
      | Some (typ, v) =>
          let before := current ts in
          (Return before,
           set_current ts (mkToken typ v (Some (0, 0))) (GenInLoop pending' typ_val'))
      | None => (Raise UnboundLocalError, set_current ts (current ts) GenDone)
      end
  | [] =>
      let before := current ts in
      (Return before, set_current ts EOF_TOKEN GenAfterLoop)
  end.

(** [TokenStream.__next__], that is [next(self._stream)]: resume the
    generator until its next [yield].  A generator whose body has
    returned, or has raised, raises [StopIteration] from then on. *)
Definition __next__ (ts : TokenStream) : outcome Token * TokenStream :=
  match _stream ts with
  | GenCreated => loop_round ts (findall (s ts)) None
  | GenInLoop pending typ_val => loop_round ts pending typ_val
  | GenAfterLoop => (Raise StopIteration, set_current ts (current ts) GenDone)
  | GenDone => (Raise StopIteration, ts)
  end.

(** [TokenStream.__post_init__]: make the generator and pull once, which
    replaces the placeholder in [current] by the first token. *)
Definition __post_init__ (ts : TokenStream) : outcome unit * TokenStream :=
  match __next__ (set_current ts (current ts) GenCreated) with
  | (Return _, ts') => (Return tt, ts')
  | (Raise e, ts') => (Raise e, ts')
  end.

(** The constructor call [TokenStream(s)]: the generated [__init__]
    stores [s] and the default of [current], then calls
    [__post_init__]. *)
Definition TokenStream_new (text : string) : outcome TokenStream :=
  match __post_init__ (mkTokenStream text ERROR_TOKEN GenCreated) with
  | (Return _, ts) => Return ts
  | (Raise e, _) => Raise e
  end.

(** The stream [TokenStream(s)] on a text for which the constructor
    returns, which is every text (see [TokenStream_new_returns]). *)
Definition stream_of (text : string) : TokenStream :=
  match TokenStream_new text with
  | Return ts => ts
  | Raise _ => mkTokenStream text ERROR_TOKEN GenDone
  end.

(** The tokens the generator makes of the items of [findall]. *)
Definition item_token (it : item) : option Token :=
  match classify it with
  | Some (typ, v) => Some (mkToken typ v (Some (0, 0)))
  | None => None
  end.

Definition tokenize (text : string) : list Token :=
  omap item_token (findall text).

(** The stream after [n] further calls of [next], whatever they
    returned or raised. *)
Fixpoint advance_n (n : nat) (ts : TokenStream) : TokenStream :=
  match n with
  | O => ts
  | S n' => advance_n n' (snd (__next__ ts))
  end.

(** How many calls of [next] can still return a token, at most (and
    exactly, when the pending items are well formed). *)
Definition remaining (ts : TokenStream) : nat :=
  match _stream ts with
  | GenCreated => S (List.length (findall (s ts)))
  | GenInLoop pending _ => S (List.length pending)
  | GenAfterLoop => 0
  | GenDone => 0
  end.

(** The states a stream built by [TokenStream(s)] goes through. *)
Inductive reachable : TokenStream -> Prop :=
| reachable_new text ts :
    TokenStream_new text = Return ts -> reachable ts
| reachable_next ts :
    reachable ts -> reachable (snd (__next__ ts)).

(** ** Syntax trees *)

(** The dataclass [Node]. *)
Inductive Node : Type :=
| mkNode (token : Token) (children : list Node).

Definition token (n : Node) : Token := match n with mkNode t _ => t end.
Definition children (n : Node) : list Node := match n with mkNode _ c => c end.

(** [Node.__repr__]: a leaf prints its token's value, an inner node its
    token's type followed by its children. *)
Fixpoint Node_repr (n : Node) : string :=
  match n with
  | mkNode t [] => str_value (val t)
  | mkNode t cs =>
      "(" +:+ type t
      +:+ (fix args (l : list Node) : string :=
             match l with
             | [] => EmptyString
             | c :: l' => (" " +:+ Node_repr c) +:+ args l'
             end) cs
      +:+ ")"
  end.

(** ** Computations over a token stream *)

(** A call that receives the token stream: it may return or raise, and
    leaves the stream in a new state either way.  [None] is the model's
    own: the recursion budget of [parse] below ran out before the call
    finished.  (The interpreter's own limit on the depth of recursion is
    not modelled.) *)
Definition M (A : Type) : Type :=
  TokenStream -> option (outcome A * TokenStream).

Definition ret {A} (a : A) : M A := fun ts => Some (Return a, ts).

Definition raise {A} (e : exn) : M A := fun ts => Some (Raise e, ts).

Definition bind {A B} (m : M A) (k : A -> M B) : M B :=
  fun ts =>
    match m ts with
    | None => None
    | Some (Raise e, ts') => Some (Raise e, ts')
    | Some (Return a, ts') => k a ts'
    end.

Notation "x <- m ;; k" := (bind m (fun x => k))
  (at level 100, m at next level, right associativity).

(** [next(token_stream)]. *)
Definition advance : M Token := fun ts => Some (__next__ ts).

(** ** The rule table *)

(** The recursive entry point a handler uses: [parse(rule_map,
    token_stream, bp)] for the table the handler is registered in.  In
    Python the handlers reach it through their module; here each handler
    receives it as its first argument. *)
Definition Parser : Type := Z -> M Node.

(** [Nud = Callable[[TokenStream, int], Node]] and
    [Led = Callable[[TokenStream, int, Node], Node]]. *)
Definition Nud : Type := Parser -> Z -> M Node.
Definition Led : Type := Parser -> Z -> Node -> M Node.

Definition raise_null_error : Nud :=
  fun _ _ ts =>
    raise (ParseError (Token_repr (current ts) +:+ " can't be used in prefix position")) ts.

Definition raise_left_error : Led :=
  fun _ _ _ ts =>
    raise (ParseError (Token_repr (current ts) +:+ " can't be used in infix position")) ts.

(** The dataclass [RuleMap]: the dictionaries [null] and [left]. *)
Record RuleMap : Type := mkRuleMap {
  null : gmap string (Nud * Z);
  left : gmap string (Led * Z * Z)
}.

(** [RuleMap()]: both dictionaries empty. *)
Definition RuleMap_new : RuleMap := mkRuleMap ∅ ∅.

(** One round of the loop of [register_null]'s [inner]. *)
Definition register_null_one (f : Nud) (bp : Z) (rule_map : RuleMap)
    (token_type : string) : RuleMap :=
  let null' := <[token_type := (f, bp)]> (null rule_map) in
  match left rule_map !! token_type with
  | None => mkRuleMap null' (<[token_type := (raise_left_error, 0, 0)]> (left rule_map))
  | Some _ => mkRuleMap null' (left rule_map)
  end.

(** The decorator [rule_map.register_null(bp, token_types)] applied to
    the function [f]; the table is updated when the decorator is
    applied. *)
Definition register_null (bp : Z) (token_types : list string) (f : Nud)
    (rule_map : RuleMap) : RuleMap :=
  foldl (register_null_one f bp) rule_map token_types.

(** One round of the loop of [register_left]'s [inner_nud]. *)
Definition register_left_one (f : Led) (lbp rbp : Z) (rule_map : RuleMap)
    (token_type : string) : RuleMap :=
  let left' := <[token_type := (f, lbp, rbp)]> (left rule_map) in
  match null rule_map !! token_type with
  | None => mkRuleMap (<[token_type := (raise_null_error, 0)]> (null rule_map)) left'
  | Some _ => mkRuleMap (null rule_map) left'
  end.

(** The decorator [rule_map.register_left(bp, token_types,
    is_left_right_assoc)] applied to the function [f]. *)
Definition register_left (bp : Z) (token_types : list string)
    (is_left_right_assoc : bool) (f : Led) (rule_map : RuleMap) : RuleMap :=
  let lbp := bp in
  let rbp := if is_left_right_assoc then bp - 1 else bp in
  foldl (register_left_one f lbp rbp) rule_map token_types.

(** A decorated definition of a grammar, and a grammar as the sequence
    of its decorated definitions, applied in order to an empty table. *)
Inductive registration : Type :=
| RegNull (bp : Z) (token_types : list string) (f : Nud)
| RegLeft (bp : Z) (token_types : list string) (is_left_right_assoc : bool) (f : Led).

Definition apply_registration (rule_map : RuleMap) (r : registration) : RuleMap :=
  match r with
  | RegNull bp token_types f => register_null bp token_types f rule_map
  | RegLeft bp token_types assoc f => register_left bp token_types assoc f rule_map
  end.

Definition build (rs : list registration) : RuleMap :=
  foldl apply_registration RuleMap_new rs.

(** The token types a grammar lists in [register_null] decorators, and
    in [register_left] decorators. *)
Definition null_types (rs : list registration) : list string :=
  concat (map (fun r => match r with RegNull _ tys _ => tys | RegLeft _ _ _ _ => [] end) rs).

Definition left_types (rs : list registration) : list string :=
  concat (map (fun r => match r with RegLeft _ tys _ _ => tys | RegNull _ _ _ => [] end) rs).

(** ** The driver *)

(** [eat]: check the type of the current token, then move on. *)
Definition eat (token_type : string) : M unit :=
  fun ts =>
    if nonempty token_type && negb (String.eqb (type (current ts)) token_type) then
      raise (ParseError ("expected " +:+ token_type +:+ ", got " +:+ Token_repr (current ts))) ts
    else
      (_ <- advance ;; ret tt) ts.

(** [parse] and its [while True] loop.  [fuel] bounds the depth of the
    nesting of calls and loop rounds; [None] means it ran out.  The
    handlers of the table are called with the parser one unit of fuel
    below. *)
Fixpoint parse (fuel : nat) (rule_map : RuleMap) (rbp : Z) (ts : TokenStream)
    {struct fuel} : option (outcome Node * TokenStream) :=
  match fuel with
  | O => None
  | S fuel' =>
      if String.eqb (type (current ts)) (type EOF_TOKEN) then
        raise (ParseError "Unexpected end of input") ts
      else
        match (null rule_map !! type (current ts) : option (Nud * Z)) with
        | None =>
            raise (ParseError ("Unexpected token " +:+ Token_repr (current ts))) ts
        | Some (nud, _bp) =>
            match nud (parse fuel' rule_map) _bp ts with
            | None => None
            | Some (Raise e, ts') => Some (Raise e, ts')
            | Some (Return node, ts') => parse_loop fuel' rule_map rbp node ts'
            end
        end
  end
with parse_loop (fuel : nat) (rule_map : RuleMap) (rbp : Z) (node : Node)
    (ts : TokenStream) {struct fuel} : option (outcome Node * TokenStream) :=
  match fuel with
  | O => None
  | S fuel' =>
      match (left rule_map !! type (current ts) : option (Led * Z * Z)) with
      | None =>
          raise (ParseError ("Unexpected token " +:+ Token_repr (current ts))) ts
      | Some (led, _lbp, _rbp) =>
          if (_lbp <=? rbp)%Z then Some (Return node, ts)
          else
            match led (parse fuel' rule_map) _rbp node ts with
            | None => None
            | Some (Raise e, ts') => Some (Raise e, ts')
            | Some (Return node', ts') => parse_loop fuel' rule_map rbp node' ts'
            end
      end
  end.

(** [sub in s] on strings. *)
Fixpoint str_contains (sub text : string) : bool :=
  String.prefix sub text
  || match text with
     | EmptyString => false
     | String _ text' => str_contains sub text'
     end.

(** ** A small grammar for examples

    The grammar of the demo lives outside the engine; the handlers below
    are written the way its tests expect an arithmetic grammar to
    behave, and serve to run the engine on concrete inputs. *)

Definition null_constant : Nud :=
  fun _ _ => t <- advance ;; ret (mkNode t []).

Definition null_paren : Nud :=
  fun parse_ bp =>
    _ <- advance ;; r <- parse_ bp ;; _ <- eat ")" ;; ret r.

Definition null_prefix_op : Nud :=
  fun parse_ bp => t <- advance ;; r <- parse_ bp ;; ret (mkNode t [r]).

Definition left_binary_op : Led :=
  fun parse_ rbp left_ =>
    t <- advance ;; r <- parse_ rbp ;; ret (mkNode t [left_; r]).

Definition null_error : Nud :=
  fun _ _ ts =>
    raise (ParseError (Token_repr (current ts) +:+ " can't be used in prefix position")) ts.

Definition arith_grammar : list registration :=
  [ RegNull (-1) ["name"; "number"] null_constant;
    RegNull 0 ["("] null_paren;
    RegNull 27 ["+"; "-"; "!"; "~"] null_prefix_op;
    RegLeft 29 ["**"] true left_binary_op;
    RegLeft 25 ["*"; "/"; "%"] false left_binary_op;
    RegLeft 23 ["+"; "-"] false left_binary_op;
    RegNull (-1) [")"; "eof"] null_error ].

Definition arith_rule_map : RuleMap := build arith_grammar.

(** [repr(parse(rule_map, TokenStream(text)))], or the exception. *)
Definition parse_text (fuel : nat) (rule_map : RuleMap) (text : string)
    : option (outcome string) :=
  match TokenStream_new text with
  | Raise e => Some (Raise e)
  | Return ts =>
      match parse fuel rule_map 0 ts with
      | None => None
      | Some (Return node, _) => Some (Return (Node_repr node))
      | Some (Raise e, _) => Some (Raise e)
      end
  end.

(** * Properties *)

(** ** The rule table *)

Section RuleMapFacts.

Implicit Types (rule_map : RuleMap) (ty : string) (tys : list string).

Lemma null_register_null_one f bp rule_map ty0 :
  null (register_null_one f bp rule_map ty0) = <[ty0 := (f, bp)]> (null rule_map).
Proof. unfold register_null_one. destruct (left rule_map !! ty0); reflexivity. Qed.

Lemma left_register_null_one f bp rule_map ty0 :
  left (register_null_one f bp rule_map ty0) =
  match left rule_map !! ty0 with
  | None => <[ty0 := (raise_left_error, 0, 0)]> (left rule_map)
  | Some _ => left rule_map
  end.
Proof. unfold register_null_one. destruct (left rule_map !! ty0); reflexivity. Qed.

Lemma left_register_left_one f lbp rbp rule_map ty0 :
  left (register_left_one f lbp rbp rule_map ty0) = <[ty0 := (f, lbp, rbp)]> (left rule_map).
Proof. unfold register_left_one. destruct (null rule_map !! ty0); reflexivity. Qed.

Lemma null_register_left_one f lbp rbp rule_map ty0 :
  null (register_left_one f lbp rbp rule_map ty0) =
  match null rule_map !! ty0 with
  | None => <[ty0 := (raise_null_error, 0)]> (null rule_map)
  | Some _ => null rule_map
  end.
Proof. unfold register_left_one. destruct (null rule_map !! ty0); reflexivity. Qed.

(** An entry of the opposite table that exists is left alone. *)
Lemma left_register_null_one_keep f bp rule_map ty0 ty e :
  left rule_map !! ty = Some e ->
  left (register_null_one f bp rule_map ty0) !! ty = Some e.
Proof.
  intros H. rewrite left_register_null_one.
  destruct (left rule_map !! ty0) eqn:E; [exact H|].
  rewrite lookup_insert_ne; [exact H|]. intros ->. congruence.
Qed.

Lemma null_register_left_one_keep f lbp rbp rule_map ty0 ty e :
  null rule_map !! ty = Some e ->
  null (register_left_one f lbp rbp rule_map ty0) !! ty = Some e.
Proof.
  intros H. rewrite null_register_left_one.
  destruct (null rule_map !! ty0) eqn:E; [exact H|].
  rewrite lookup_insert_ne; [exact H|]. intros ->. congruence.
Qed.

Lemma left_register_null_keep bp tys f rule_map ty e :
  left rule_map !! ty = Some e ->
  left (register_null bp tys f rule_map) !! ty = Some e.
Proof.
  unfold register_null. revert rule_map.
  induction tys as [|ty0 tys IH]; intros rule_map H; simpl; [exact H|].
  apply IH. apply left_register_null_one_keep. exact H.
Qed.

Lemma null_fold_left_keep f lbp rbp tys rule_map ty e :
  null rule_map !! ty = Some e ->
  null (foldl (register_left_one f lbp rbp) rule_map tys) !! ty = Some e.
Proof.
  revert rule_map.
  induction tys as [|ty0 tys IH]; intros rule_map H; simpl; [exact H|].
  apply IH. apply null_register_left_one_keep. exact H.
Qed.

Lemma null_register_left_keep bp tys assoc f rule_map ty e :
  null rule_map !! ty = Some e ->
  null (register_left bp tys assoc f rule_map) !! ty = Some e.
Proof. apply null_fold_left_keep. Qed.

(** A type that is not listed keeps whatever it had, in both tables. *)
Lemma left_register_null_other bp tys f rule_map ty :
  ty ∉ tys ->
  left (register_null bp tys f rule_map) !! ty = left rule_map !! ty.
Proof.
  unfold register_null. revert rule_map.
  induction tys as [|ty0 tys IH]; intros rule_map H; simpl; [reflexivity|].
  apply not_elem_of_cons in H as [Hne H].
  rewrite (IH _ H), left_register_null_one.
  destruct (left rule_map !! ty0); [reflexivity|].
  apply lookup_insert_ne. congruence.
Qed.

Lemma null_register_null_other bp tys f rule_map ty :
  ty ∉ tys ->
  null (register_null bp tys f rule_map) !! ty = null rule_map !! ty.
Proof.
  unfold register_null. revert rule_map.
  induction tys as [|ty0 tys IH]; intros rule_map H; simpl; [reflexivity|].
  apply not_elem_of_cons in H as [Hne H].
  rewrite (IH _ H), null_register_null_one.
  apply lookup_insert_ne. congruence.
Qed.

Lemma left_fold_left_other f lbp rbp tys rule_map ty :
  ty ∉ tys ->
  left (foldl (register_left_one f lbp rbp) rule_map tys) !! ty = left rule_map !! ty.
Proof.
  revert rule_map.
  induction tys as [|ty0 tys IH]; intros rule_map H; simpl; [reflexivity|].
  apply not_elem_of_cons in H as [Hne H].
  rewrite (IH _ H), left_register_left_one.
  apply lookup_insert_ne. congruence.
Qed.

Lemma left_register_left_other bp tys assoc f rule_map ty :
  ty ∉ tys ->
  left (register_left bp tys assoc f rule_map) !! ty = left rule_map !! ty.
Proof. apply left_fold_left_other. Qed.

Lemma null_register_left_other bp tys assoc f rule_map ty :
  ty ∉ tys ->
  null (register_left bp tys assoc f rule_map) !! ty = null rule_map !! ty.
Proof.
  unfold register_left. generalize (if assoc then bp - 1 else bp). intros rbp.
  revert rule_map.
  induction tys as [|ty0 tys IH]; intros rule_map H; simpl; [reflexivity|].
  apply not_elem_of_cons in H as [Hne H].
  rewrite (IH _ H), null_register_left_one.
  destruct (null rule_map !! ty0); [reflexivity|].
  apply lookup_insert_ne. congruence.
Qed.

(** A listed type gets the registered entry in the table the decorator
    is for: the last assignment of the loop to that key wins, and all of
    them assign the same entry. *)
Lemma left_fold_left_listed f lbp rbp tys rule_map ty :
  ty ∈ tys ->
  left (foldl (register_left_one f lbp rbp) rule_map tys) !! ty = Some (f, lbp, rbp).
Proof.
  revert rule_map.
  induction tys as [|ty0 tys IH]; intros rule_map H; simpl.
  - inversion H.
  - destruct (decide (ty ∈ tys)) as [Hin|Hout].
    + apply IH, Hin.
    + apply elem_of_cons in H as [->|H]; [|contradiction].
      rewrite (left_fold_left_other _ _ _ _ _ _ Hout), left_register_left_one.
      apply lookup_insert_eq.
Qed.

Lemma left_register_left_listed bp tys assoc f rule_map ty :
  ty ∈ tys ->
  left (register_left bp tys assoc f rule_map) !! ty =
  Some (f, bp, if assoc then bp - 1 else bp).
Proof. apply left_fold_left_listed. Qed.

Lemma null_register_null_listed bp tys f rule_map ty :
  ty ∈ tys ->
  null (register_null bp tys f rule_map) !! ty = Some (f, bp).
Proof.
  unfold register_null. revert rule_map.
  induction tys as [|ty0 tys IH]; intros rule_map H; simpl.
  - inversion H.
  - destruct (decide (ty ∈ tys)) as [Hin|Hout].
    + apply IH, Hin.
    + apply elem_of_cons in H as [->|H]; [|contradiction].
      pose proof (null_register_null_other bp tys f
                    (register_null_one f bp rule_map ty0) ty0 Hout) as E.
      unfold register_null in E. rewrite E, null_register_null_one.
      apply lookup_insert_eq.
Qed.

(** A listed type that the opposite table lacks gets the placeholder
    there. *)
Lemma left_register_null_placeholder bp tys f rule_map ty :
  ty ∈ tys -> left rule_map !! ty = None ->
  left (register_null bp tys f rule_map) !! ty = Some (raise_left_error, 0, 0).
Proof.
  unfold register_null. revert rule_map.
  induction tys as [|ty0 tys IH]; intros rule_map H Hnone; simpl.
  - inversion H.
  - destruct (decide (ty = ty0)) as [->|Hne].
    + apply (left_register_null_keep bp tys f).
      rewrite left_register_null_one, Hnone. apply lookup_insert_eq.
    + apply elem_of_cons in H as [?|H]; [contradiction|].
      apply IH; [exact H|].
      rewrite left_register_null_one.
      destruct (left rule_map !! ty0); [exact Hnone|].
      rewrite lookup_insert_ne; [exact Hnone|congruence].
Qed.

Lemma null_register_left_placeholder bp tys assoc f rule_map ty :
  ty ∈ tys -> null rule_map !! ty = None ->
  null (register_left bp tys assoc f rule_map) !! ty = Some (raise_null_error, 0).
Proof.
  unfold register_left. generalize (if assoc then bp - 1 else bp). intros rbp.
  revert rule_map.
  induction tys as [|ty0 tys IH]; intros rule_map H Hnone; simpl.
  - inversion H.
  - destruct (decide (ty = ty0)) as [->|Hne].
    + apply null_fold_left_keep.
      rewrite null_register_left_one, Hnone. apply lookup_insert_eq.
    + apply elem_of_cons in H as [?|H]; [contradiction|].
      apply IH; [exact H|].
      rewrite null_register_left_one.
      destruct (null rule_map !! ty0); [exact Hnone|].
      rewrite lookup_insert_ne; [exact Hnone|congruence].
Qed.

(** Both tables have the same keys. *)
Definition same_keys rule_map : Prop :=
  forall ty, is_Some (null rule_map !! ty) <-> is_Some (left rule_map !! ty).

Lemma same_keys_new : same_keys RuleMap_new.
Proof. intros ty. simpl. rewrite !lookup_empty. split; intros [? ?]; discriminate. Qed.

Lemma same_keys_register_null_one f bp rule_map ty0 :
  same_keys rule_map -> same_keys (register_null_one f bp rule_map ty0).
Proof.
  intros H ty. rewrite null_register_null_one, left_register_null_one.
  destruct (decide (ty = ty0)) as [->|Hne].
  - rewrite lookup_insert_eq.
    destruct (left rule_map !! ty0) eqn:E.
    + rewrite E. split; eauto.
    + rewrite lookup_insert_eq. split; eauto.
  - rewrite lookup_insert_ne by congruence.
    destruct (left rule_map !! ty0) eqn:E; [apply H|].
    rewrite lookup_insert_ne by congruence. apply H.
Qed.

Lemma same_keys_register_left_one f lbp rbp rule_map ty0 :
  same_keys rule_map -> same_keys (register_left_one f lbp rbp rule_map ty0).
Proof.
  intros H ty. rewrite null_register_left_one, left_register_left_one.
  destruct (decide (ty = ty0)) as [->|Hne].
  - rewrite lookup_insert_eq.
    destruct (null rule_map !! ty0) eqn:E.
    + rewrite E. split; eauto.
    + rewrite lookup_insert_eq. split; eauto.
  - rewrite lookup_insert_ne by congruence.
    destruct (null rule_map !! ty0) eqn:E; [apply H|].
    rewrite lookup_insert_ne by congruence. apply H.
Qed.

Lemma same_keys_apply_registration rule_map r :
  same_keys rule_map -> same_keys (apply_registration rule_map r).
Proof.
  destruct r as [bp tys f|bp tys assoc f]; simpl.
  - unfold register_null. revert rule_map.
    induction tys as [|ty0 tys IH]; intros rule_map H; simpl; [exact H|].
    apply IH, same_keys_register_null_one, H.
  - unfold register_left. generalize (if assoc then bp - 1 else bp). intros rbp.
    revert rule_map.
    induction tys as [|ty0 tys IH]; intros rule_map H; simpl; [exact H|].
    apply IH, same_keys_register_left_one, H.
Qed.

Lemma same_keys_build rs : same_keys (build rs).
Proof.
  unfold build. generalize same_keys_new. generalize RuleMap_new.
  induction rs as [|r rs IH]; intros rule_map H; simpl; [exact H|].
  apply IH, same_keys_apply_registration, H.
Qed.

(** A grammar, one decorated definition after the other. *)
Lemma build_snoc rs r : build (rs ++ [r]) = apply_registration (build rs) r.
Proof. unfold build. rewrite foldl_app. reflexivity. Qed.

Lemma null_types_snoc rs r :
  null_types (rs ++ [r]) =
  null_types rs ++ match r with RegNull _ tys _ => tys | RegLeft _ _ _ _ => [] end.
Proof. unfold null_types. rewrite map_app, concat_app. simpl. rewrite app_nil_r. reflexivity. Qed.

Lemma left_types_snoc rs r :
  left_types (rs ++ [r]) =
  left_types rs ++ match r with RegLeft _ tys _ _ => tys | RegNull _ _ _ => [] end.
Proof. unfold left_types. rewrite map_app, concat_app. simpl. rewrite app_nil_r. reflexivity. Qed.

(** What the [left] table holds for a type that no [register_left]
    decorator lists: nothing, or the placeholder when a [register_null]
    decorator lists the type. *)
Lemma build_left_unlisted rs ty :
  ty ∉ left_types rs ->
  ((ty ∉ null_types rs) /\ left (build rs) !! ty = None)
  \/ (ty ∈ null_types rs /\ left (build rs) !! ty = Some (raise_left_error, 0, 0)).
Proof.
  induction rs as [|r rs IH] using rev_ind; intros Hl.
  - left. split; [apply not_elem_of_nil|]. apply lookup_empty.
  - rewrite left_types_snoc in Hl. apply not_elem_of_app in Hl as [Hl Hr].
    rewrite build_snoc, null_types_snoc.
    destruct r as [bp tys f|bp tys assoc f]; simpl.
    + destruct (decide (ty ∈ tys)) as [Hin|Hout].
      * right. split; [apply elem_of_app; right; exact Hin|].
        destruct (IH Hl) as [[_ E]|[_ E]].
        -- apply left_register_null_placeholder; assumption.
        -- apply left_register_null_keep; assumption.
      * rewrite (left_register_null_other _ _ _ _ _ Hout).
        destruct (IH Hl) as [[N E]|[N E]]; [left|right]; (split; [|exact E]).
        -- intros [?|?]%elem_of_app; contradiction.
        -- apply elem_of_app; left; exact N.
    + rewrite app_nil_r, (left_register_left_other _ _ _ _ _ _ Hr). apply IH, Hl.
Qed.

Lemma build_null_unlisted rs ty :
  ty ∉ null_types rs ->
  ((ty ∉ left_types rs) /\ null (build rs) !! ty = None)
  \/ (ty ∈ left_types rs /\ null (build rs) !! ty = Some (raise_null_error, 0)).
Proof.
  induction rs as [|r rs IH] using rev_ind; intros Hn.
  - left. split; [apply not_elem_of_nil|]. apply lookup_empty.
  - rewrite null_types_snoc in Hn. apply not_elem_of_app in Hn as [Hn Hr].
    rewrite build_snoc, left_types_snoc.
    destruct r as [bp tys f|bp tys assoc f]; simpl.
    + rewrite app_nil_r, (null_register_null_other _ _ _ _ _ Hr). apply IH, Hn.
    + destruct (decide (ty ∈ tys)) as [Hin|Hout].
      * right. split; [apply elem_of_app; right; exact Hin|].
        destruct (IH Hn) as [[_ E]|[_ E]].
        -- apply null_register_left_placeholder; assumption.
        -- apply null_register_left_keep; assumption.
      * rewrite (null_register_left_other _ _ _ _ _ _ Hout).
        destruct (IH Hn) as [[N E]|[N E]]; [left|right]; (split; [|exact E]).
        -- intros [?|?]%elem_of_app; contradiction.
        -- apply elem_of_app; left; exact N.
Qed.

End RuleMapFacts.

(** C2.  [register_left(bp, token_types, is_left_right_assoc)] gives
    every listed type the infix entry with the decorated handler, left
    binding power [bp], and right binding power [bp] when the flag is
    false (left-associative) and [bp - 1] when it is true
    (right-associative).  An entry of [left] is this triple and nothing
    else, so the flag itself is not stored. *)
Theorem register_left_binding_powers
    (bp : Z) (token_types : list string) (is_left_right_assoc : bool)
    (f : Led) (rule_map : RuleMap) (token_type : string) :
  token_type ∈ token_types ->
  left (register_left bp token_types is_left_right_assoc f rule_map) !! token_type
  = Some (f, bp, if is_left_right_assoc then bp - 1 else bp).
Proof. apply left_register_left_listed. Qed.

Lemma register_left_binding_powers_witness :
  left (register_left 29 ["**"] true left_binary_op RuleMap_new) !! "**"
  = Some (left_binary_op, 29, 28)
  /\ left (register_left 25 ["*"; "/"; "%"] false left_binary_op RuleMap_new) !! "/"
     = Some (left_binary_op, 25, 25).
Proof.
  split.
  - apply (register_left_binding_powers 29 ["**"] true left_binary_op RuleMap_new "**").
    apply list_elem_of_here.
  - apply (register_left_binding_powers 25 ["*"; "/"; "%"] false left_binary_op
             RuleMap_new "/").
    apply list_elem_of_further, list_elem_of_here.
Defined.

(** C3.  After any sequence of [register_null] and [register_left]
    decorators applied to an empty table, [null] and [left] have the
    same keys.  A decorator gives each listed type that the opposite
    table lacks a placeholder there, with binding powers 0, and leaves
    an entry the opposite table already has as it is; the placeholders
    raise a [ParseError] whatever their arguments. *)
Theorem tables_share_keys (rs : list registration) :
  (forall ty, is_Some (null (build rs) !! ty) <-> is_Some (left (build rs) !! ty))
  /\ (forall bp tys f rule_map ty,
        ty ∈ tys -> left rule_map !! ty = None ->
        left (register_null bp tys f rule_map) !! ty = Some (raise_left_error, 0, 0))
  /\ (forall bp tys assoc f rule_map ty,
        ty ∈ tys -> null rule_map !! ty = None ->
        null (register_left bp tys assoc f rule_map) !! ty = Some (raise_null_error, 0))
  /\ (forall bp tys f rule_map ty e,
        left rule_map !! ty = Some e ->
        left (register_null bp tys f rule_map) !! ty = Some e)
  /\ (forall bp tys assoc f rule_map ty e,
        null rule_map !! ty = Some e ->
        null (register_left bp tys assoc f rule_map) !! ty = Some e)
  /\ (forall p bp ts, exists msg,
        raise_null_error p bp ts = Some (Raise (ParseError msg), ts))
  /\ (forall p bp node ts, exists msg,
        raise_left_error p bp node ts = Some (Raise (ParseError msg), ts)).
Proof.
  split; [apply same_keys_build|].
  split; [intros; apply left_register_null_placeholder; assumption|].
  split; [intros; apply null_register_left_placeholder; assumption|].
  split; [intros; apply left_register_null_keep; assumption|].
  split; [intros; apply null_register_left_keep; assumption|].
  split; intros; eexists; reflexivity.
Qed.

Lemma tables_share_keys_witness :
  (is_Some (null arith_rule_map !! "%") <-> is_Some (left arith_rule_map !! "%"))
  /\ left (register_null (-1) ["number"] null_constant RuleMap_new) !! "number"
     = Some (raise_left_error, 0, 0)
  /\ left (register_null 27 ["-"] null_prefix_op
             (register_left 23 ["-"] false left_binary_op RuleMap_new)) !! "-"
     = Some (left_binary_op, 23, 23).
Proof.
  split; [|split].
  - apply (proj1 (tables_share_keys arith_grammar)).
  - apply (proj1 (proj2 (tables_share_keys []))).
    + apply list_elem_of_here.
    + reflexivity.
  - apply (proj1 (proj2 (proj2 (proj2 (tables_share_keys []))))). reflexivity.
Defined.

(** The arithmetic grammar: [number] is registered in prefix position
    only and [%] in infix position only; each has the placeholder in
    the other table, and [-], registered in both, has none. *)
Example arith_placeholders :
  left arith_rule_map !! "number" = Some (raise_left_error, 0, 0)
  /\ null arith_rule_map !! "%" = Some (raise_null_error, 0)
  /\ null arith_rule_map !! "-" = Some (null_prefix_op, 27)
  /\ left arith_rule_map !! "-" = Some (left_binary_op, 23, 23)
  /\ null arith_rule_map !! "{" = None
  /\ left arith_rule_map !! "{" = None.
Proof. repeat split; vm_compute; reflexivity. Qed.

(** ** Strings *)

Lemma string_app_cons (c : ascii) (a b : string) :
  String c a +:+ b = String c (a +:+ b).
Proof. reflexivity. Qed.

Lemma string_app_nil_l (b : string) : EmptyString +:+ b = b.
Proof. reflexivity. Qed.

Lemma string_app_nil_r (a : string) : a +:+ EmptyString = a.
Proof.
  induction a as [|c a IH]; [reflexivity|].
  rewrite string_app_cons, IH. reflexivity.
Qed.

Lemma string_app_assoc (a b c : string) : (a +:+ b) +:+ c = a +:+ (b +:+ c).
Proof.
  induction a as [|x a IH]; [reflexivity|].
  rewrite !string_app_cons, IH. reflexivity.
Qed.

Lemma prefix_app (sub post : string) : String.prefix sub (sub +:+ post) = true.
Proof.
  induction sub as [|c sub IH].
  - rewrite string_app_nil_l. destruct post; reflexivity.
  - rewrite string_app_cons. simpl.
    destruct (ascii_dec c c); [exact IH|contradiction].
Qed.

Lemma str_contains_of_prefix (sub text : string) :
  String.prefix sub text = true -> str_contains sub text = true.
Proof. intros H. destruct text; cbn [str_contains]; rewrite H; reflexivity. Qed.

Lemma str_contains_app (pre sub post : string) :
  str_contains sub (pre +:+ (sub +:+ post)) = true.
Proof.
  induction pre as [|c pre IH].
  - rewrite string_app_nil_l. apply str_contains_of_prefix, prefix_app.
  - rewrite string_app_cons. cbn [str_contains]. rewrite IH. apply orb_true_r.
Qed.

(** A message that ends in [tail], said of a token. *)
Lemma str_contains_suffix (head tail : string) (c : ascii) :
  str_contains tail (head +:+ String c tail) = true.
Proof.
  replace (head +:+ String c tail)
    with ((head +:+ String c EmptyString) +:+ (tail +:+ EmptyString)).
  - apply str_contains_app.
  - rewrite string_app_nil_r, string_app_assoc. reflexivity.
Qed.

(** ** The driver *)

Section ParseFacts.

Variable rule_map : RuleMap.

Lemma parse_unfold fuel rbp ts :
  parse (S fuel) rule_map rbp ts
  = if String.eqb (type (current ts)) "eof" then
      Some (Raise (ParseError "Unexpected end of input"), ts)
    else
      match (null rule_map !! type (current ts) : option (Nud * Z)) with
      | None =>
          Some (Raise (ParseError ("Unexpected token " +:+ Token_repr (current ts))), ts)
      | Some (nud, bp) =>
          match nud (parse fuel rule_map) bp ts with
          | None => None
          | Some (Raise e, ts') => Some (Raise e, ts')
          | Some (Return node, ts') => parse_loop fuel rule_map rbp node ts'
          end
      end.
Proof. reflexivity. Qed.

Lemma parse_loop_unfold fuel rbp node ts :
  parse_loop (S fuel) rule_map rbp node ts
  = match (left rule_map !! type (current ts) : option (Led * Z * Z)) with
    | None =>
        Some (Raise (ParseError ("Unexpected token " +:+ Token_repr (current ts))), ts)
    | Some (led, lbp, rbp') =>
        if (lbp <=? rbp)%Z then Some (Return node, ts)
        else
          match led (parse fuel rule_map) rbp' node ts with
          | None => None
          | Some (Raise e, ts') => Some (Raise e, ts')
          | Some (Return node', ts') => parse_loop fuel rule_map rbp node' ts'
          end
    end.
Proof. reflexivity. Qed.

Lemma parse_eof fuel rbp ts :
  type (current ts) = "eof" ->
  parse (S fuel) rule_map rbp ts
  = Some (Raise (ParseError "Unexpected end of input"), ts).
Proof. intros H. rewrite parse_unfold, H. reflexivity. Qed.

Lemma parse_no_prefix_rule fuel rbp ts :
  type (current ts) <> "eof" ->
  null rule_map !! type (current ts) = None ->
  parse (S fuel) rule_map rbp ts
  = Some (Raise (ParseError ("Unexpected token " +:+ Token_repr (current ts))), ts).
Proof.
  intros Hne H. rewrite parse_unfold, H.
  apply String.eqb_neq in Hne. rewrite Hne. reflexivity.
Qed.

Lemma parse_prefix fuel rbp ts (nud : Nud) (bp : Z) :
  type (current ts) <> "eof" ->
  null rule_map !! type (current ts) = Some (nud, bp) ->
  parse (S fuel) rule_map rbp ts
  = match nud (parse fuel rule_map) bp ts with
    | None => None
    | Some (Raise e, ts') => Some (Raise e, ts')
    | Some (Return node, ts') => parse_loop fuel rule_map rbp node ts'
    end.
Proof.
  intros Hne H. rewrite parse_unfold, H.
  apply String.eqb_neq in Hne. rewrite Hne. reflexivity.
Qed.

Lemma parse_loop_no_infix_rule fuel rbp node ts :
  left rule_map !! type (current ts) = None ->
  parse_loop (S fuel) rule_map rbp node ts
  = Some (Raise (ParseError ("Unexpected token " +:+ Token_repr (current ts))), ts).
Proof. intros H. rewrite parse_loop_unfold, H. reflexivity. Qed.

Lemma parse_loop_stop fuel rbp node ts (led : Led) (lbp rbp' : Z) :
  left rule_map !! type (current ts) = Some (led, lbp, rbp') ->
  lbp <= rbp ->
  parse_loop (S fuel) rule_map rbp node ts = Some (Return node, ts).
Proof.
  intros H Hle. rewrite parse_loop_unfold, H.
  apply Z.leb_le in Hle. rewrite Hle. reflexivity.
Qed.

Lemma parse_loop_continue fuel rbp node ts (led : Led) (lbp rbp' : Z) :
  left rule_map !! type (current ts) = Some (led, lbp, rbp') ->
  rbp < lbp ->
  parse_loop (S fuel) rule_map rbp node ts
  = match led (parse fuel rule_map) rbp' node ts with
    | None => None
    | Some (Raise e, ts') => Some (Raise e, ts')
    | Some (Return node', ts') => parse_loop fuel rule_map rbp node' ts'
    end.
Proof.
  intros H Hlt. rewrite parse_loop_unfold, H.
  apply Z.leb_gt in Hlt. rewrite Hlt. reflexivity.
Qed.

End ParseFacts.

(** C1.  Once the prefix handler has returned the left operand, [parse]
    is its loop on that operand.  A round of the loop looks up the
    infix entry [(led, lbp, rbp')] of the current token's type.  When
    [rbp >= lbp] the loop ends: [parse] returns the operand it has, and
    the stream is as it was, the token still current.  Otherwise [led]
    is called with the stream, [rbp'] and the operand; what it returns
    is the operand of the next round, on the stream as [led] left it
    (and what it raises ends [parse]). *)
Theorem parse_loop_round (rule_map : RuleMap) (fuel : nat) (rbp : Z) :
  (forall ts (nud : Nud) (bp : Z) node ts1,
      type (current ts) <> "eof" ->
      null rule_map !! type (current ts) = Some (nud, bp) ->
      nud (parse fuel rule_map) bp ts = Some (Return node, ts1) ->
      parse (S fuel) rule_map rbp ts = parse_loop fuel rule_map rbp node ts1)
  /\ (forall ts node (led : Led) (lbp rbp' : Z),
        left rule_map !! type (current ts) = Some (led, lbp, rbp') ->
        rbp >= lbp ->
        parse_loop (S fuel) rule_map rbp node ts = Some (Return node, ts))
  /\ (forall ts node (led : Led) (lbp rbp' : Z) node' ts',
        left rule_map !! type (current ts) = Some (led, lbp, rbp') ->
        ~ rbp >= lbp ->
        led (parse fuel rule_map) rbp' node ts = Some (Return node', ts') ->
        parse_loop (S fuel) rule_map rbp node ts = parse_loop fuel rule_map rbp node' ts')
  /\ (forall ts node (led : Led) (lbp rbp' : Z) e ts',
        left rule_map !! type (current ts) = Some (led, lbp, rbp') ->
        ~ rbp >= lbp ->
        led (parse fuel rule_map) rbp' node ts = Some (Raise e, ts') ->
        parse_loop (S fuel) rule_map rbp node ts = Some (Raise e, ts')).
Proof.
  repeat split.
  - intros ts nud bp node ts1 Hne H E.
    rewrite (parse_prefix _ _ _ _ _ _ Hne H), E. reflexivity.
  - intros ts node led lbp rbp' H Hge.
    apply (parse_loop_stop _ _ _ _ _ _ _ _ H). lia.
  - intros ts node led lbp rbp' node' ts' H Hlt E.
    rewrite (parse_loop_continue _ _ _ _ _ _ _ _ H), E; [reflexivity|lia].
  - intros ts node led lbp rbp' e ts' H Hlt E.
    rewrite (parse_loop_continue _ _ _ _ _ _ _ _ H), E; [reflexivity|lia].
Qed.

(** The driver on [1+2], after the prefix handler returned the operand
    [1] and left [+] current: with [rbp] 23, the left binding power of
    [+], the loop stops and returns [1] with [+] still current; with
    [rbp] 0 the handler of [+] is called with right binding power 23
    and its result [(+ 1 2)] is the operand of the next round. *)
Lemma parse_loop_round_witness :
  let one := mkNode (mkToken "number" (VInt 1) (Some (0, 0))) [] in
  let two := mkNode (mkToken "number" (VInt 2) (Some (0, 0))) [] in
  let sum := mkNode (mkToken "+" (VStr "+") (Some (0, 0))) [one; two] in
  let ts := stream_of "1+2" in
  parse 6 arith_rule_map 0 ts = parse_loop 5 arith_rule_map 0 one (advance_n 1 ts)
  /\ parse_loop 5 arith_rule_map 23 one (advance_n 1 ts)
     = Some (Return one, advance_n 1 ts)
  /\ parse_loop 5 arith_rule_map 0 one (advance_n 1 ts)
     = parse_loop 4 arith_rule_map 0 sum (advance_n 3 ts).
Proof.
  intros one two sum ts. split; [|split].
  - apply (proj1 (parse_loop_round arith_rule_map 5 0) ts null_constant (-1));
      [discriminate|reflexivity|reflexivity].
  - apply (proj1 (proj2 (parse_loop_round arith_rule_map 4 23))
             (advance_n 1 ts) one left_binary_op 23 23); [reflexivity|lia].
  - apply (proj1 (proj2 (proj2 (parse_loop_round arith_rule_map 4 0)))
             (advance_n 1 ts) one left_binary_op 23 23); [reflexivity|lia|reflexivity].
Defined.

(** A round of the loop on a token whose infix entry is the placeholder
    of [register_null]: a minimum binding power of 0 or more stops the
    loop before the placeholder is called; a negative one calls it. *)
Lemma parse_loop_placeholder (rule_map : RuleMap) (fuel : nat) (rbp : Z)
    (node : Node) (ts : TokenStream) :
  left rule_map !! type (current ts) = Some (raise_left_error, 0, 0) ->
  parse_loop (S fuel) rule_map rbp node ts
  = if (0 <=? rbp)%Z then Some (Return node, ts)
    else Some (Raise (ParseError
                 (Token_repr (current ts) +:+ " can't be used in infix position")), ts).
Proof. intros H. rewrite parse_loop_unfold, H. reflexivity. Qed.

(** C9, as the code has it.  The placeholder [raise_left_error] that
    [register_null] installs has left binding power 0.  A token type that a grammar
    lists only in [register_null] decorators has this placeholder as its
    infix entry; when the loop of [parse] meets such a token with a
    minimum binding power [rbp >= 0], the stopping rule applies first:
    the loop ends and the left operand is returned, the stream
    untouched, and no error is raised.  The placeholder is called, and
    its message raised, exactly when [rbp] is negative, in whatever call
    of [parse] the loop runs, the outermost one included. *)
Theorem prefix_only_token_ends_loop
    (rs : list registration) (fuel : nat) (rbp : Z) (node : Node) (ts : TokenStream) :
  type (current ts) ∈ null_types rs ->
  type (current ts) ∉ left_types rs ->
  left (build rs) !! type (current ts) = Some (raise_left_error, 0, 0)
  /\ (0 <= rbp ->
      parse_loop (S fuel) (build rs) rbp node ts = Some (Return node, ts))
  /\ (rbp < 0 ->
      exists msg,
        parse_loop (S fuel) (build rs) rbp node ts = Some (Raise (ParseError msg), ts)
        /\ str_contains "can't be used in infix position" msg = true)
  /\ (forall msg ts',
        parse_loop (S fuel) (build rs) rbp node ts = Some (Raise (ParseError msg), ts') ->
        rbp < 0).
Proof.
  intros Hn Hl.
  assert (E : left (build rs) !! type (current ts) = Some (raise_left_error, 0, 0)).
  { destruct (build_left_unlisted rs _ Hl) as [[N _]|[_ E]]; [contradiction|exact E]. }
  split; [exact E|].
  rewrite (parse_loop_placeholder _ fuel rbp node ts E).
  destruct (0 <=? rbp)%Z eqn:Hb.
  - apply Z.leb_le in Hb. repeat split.
    + intros; lia.
    + intros msg ts' H. discriminate H.
  - apply Z.leb_gt in Hb. split; [intros; lia|]. split.
    + intros _. eexists. split; [reflexivity|]. apply str_contains_suffix.
    + intros; exact Hb.
Qed.

(** C7, as the code has it.  A token type other than [eof] that a
    grammar lists in a [register_left] decorator and in no
    [register_null] decorator has the placeholder [raise_null_error] as
    its prefix entry, and [parse] called while the current token has
    that type raises a [ParseError] whose message contains
    [can't be used in prefix position]; the stream is left as it was. *)
Theorem infix_only_token_in_prefix_position
    (rs : list registration) (fuel : nat) (rbp : Z) (ts : TokenStream) :
  type (current ts) ∈ left_types rs ->
  type (current ts) ∉ null_types rs ->
  type (current ts) <> "eof" ->
  exists msg,
    parse (S fuel) (build rs) rbp ts = Some (Raise (ParseError msg), ts)
    /\ str_contains "can't be used in prefix position" msg = true.
Proof.
  intros Hl Hn Hne.
  assert (E : null (build rs) !! type (current ts) = Some (raise_null_error, 0)).
  { destruct (build_null_unlisted rs _ Hn) as [[N _]|[_ E]]; [contradiction|exact E]. }
  rewrite (parse_prefix _ _ _ _ _ _ Hne E).
  eexists. split; [reflexivity|]. apply str_contains_suffix.
Qed.

(** ** The scanner: matches are not empty *)

Lemma span_cons_true (p : ascii -> bool) (c : ascii) (text : string) :
  p c = true ->
  span p (String c text) = (String c (fst (span p text)), snd (span p text)).
Proof. intros H. simpl. rewrite H. destruct (span p text). reflexivity. Qed.

Lemma span_cons_false (p : ascii -> bool) (c : ascii) (text : string) :
  p c = false -> span p (String c text) = (EmptyString, String c text).
Proof. intros H. simpl. rewrite H. reflexivity. Qed.

Lemma span_rest_length (p : ascii -> bool) (text : string) :
  (String.length (snd (span p text)) <= String.length text)%nat.
Proof.
  induction text as [|c text IH]; simpl; [lia|].
  destruct (p c); [|simpl; lia].
  destruct (span p text); simpl in *. lia.
Qed.

(** An item is well formed when one of its groups is not empty, that
    is when the [if]/[elif] chain takes a branch. *)
Definition good_item (it : item) : Prop := is_Some (classify it).

Lemma match_at_spec (text : string) (it : item) (rest : string) :
  match_at text = Some (it, rest) ->
  good_item it /\ (String.length rest < String.length text)%nat.
Proof.
  unfold match_at, good_item.
  pose proof (span_rest_length is_space text) as Hs.
  destruct (snd (span is_space text)) as [|c body'] eqn:Eb; [discriminate|].
  simpl in Hs.
  destruct (is_digit c) eqn:Ed; [|destruct (is_word c) eqn:Ew;
    [|destruct (is_op c) eqn:Eo; [|destruct (is_bracket c) eqn:Ek; [|discriminate]]]].
  - pose proof (span_rest_length is_digit body') as Hr.
    rewrite (span_cons_true _ _ _ Ed). intros [= <- <-].
    split; [eexists; reflexivity|]. lia.
  - pose proof (span_rest_length is_word body') as Hr.
    rewrite (span_cons_true _ _ _ Ew). intros [= <- <-].
    split; [eexists; reflexivity|]. lia.
  - pose proof (span_rest_length is_op body') as Hr.
    rewrite (span_cons_true _ _ _ Eo). intros [= <- <-].
    split; [eexists; reflexivity|]. lia.
  - intros [= <- <-]. split; [eexists; reflexivity|]. lia.
Qed.

Lemma scan_good (fuel : nat) (text : string) : Forall good_item (scan fuel text).
Proof.
  revert text. induction fuel as [|fuel IH]; intros text; simpl; [constructor|].
  destruct (match_at text) as [[it rest]|] eqn:E.
  - constructor; [|apply IH]. apply (match_at_spec _ _ _ E).
  - destruct text; [constructor|apply IH].
Qed.

Lemma findall_good (text : string) : Forall good_item (findall text).
Proof. apply scan_good. Qed.

(** ** The token stream *)

Section StreamFacts.

Implicit Types (text : string) (cur : Token) (pending : list item)
  (tv : option (string * value)).

Lemma next_in_loop_cons text cur it pending tv typ v :
  classify it = Some (typ, v) ->
  __next__ (mkTokenStream text cur (GenInLoop (it :: pending) tv))
  = (Return cur,
     mkTokenStream text (mkToken typ v (Some (0, 0)))
       (GenInLoop pending (Some (typ, v)))).
Proof. intros H. unfold __next__, loop_round. simpl. rewrite H. reflexivity. Qed.

Lemma next_in_loop_nil text cur tv :
  __next__ (mkTokenStream text cur (GenInLoop [] tv))
  = (Return cur, mkTokenStream text EOF_TOKEN GenAfterLoop).
Proof. reflexivity. Qed.

Lemma next_after_loop text cur :
  __next__ (mkTokenStream text cur GenAfterLoop)
  = (Raise StopIteration, mkTokenStream text cur GenDone).
Proof. reflexivity. Qed.

Lemma next_done text cur :
  __next__ (mkTokenStream text cur GenDone)
  = (Raise StopIteration, mkTokenStream text cur GenDone).
Proof. reflexivity. Qed.

Lemma advance_n_S n ts : advance_n (S n) ts = snd (__next__ (advance_n n ts)).
Proof.
  revert ts. induction n as [|n IH]; intros ts; [reflexivity|].
  change (advance_n (S (S n)) ts) with (advance_n (S n) (snd (__next__ ts))).
  rewrite IH. reflexivity.
Qed.

Lemma advance_n_add n m ts : advance_n (n + m) ts = advance_n m (advance_n n ts).
Proof. revert ts. induction n as [|n IH]; intros ts; simpl; [reflexivity|apply IH]. Qed.

(** What the constructor builds: the generator is suspended inside the
    loop after the first item, or after the loop when there is none. *)
Lemma TokenStream_new_eq text :
  TokenStream_new text
  = Return match findall text with
           | [] => mkTokenStream text EOF_TOKEN GenAfterLoop
           | it :: pending =>
               match classify it with
               | Some (typ, v) =>
                   mkTokenStream text (mkToken typ v (Some (0, 0)))
                     (GenInLoop pending (Some (typ, v)))
               | None => mkTokenStream text ERROR_TOKEN GenDone
               end
           end.
Proof.
  unfold TokenStream_new, __post_init__, __next__, set_current. simpl.
  pose proof (findall_good text) as G.
  destruct (findall text) as [|it pending]; [reflexivity|].
  apply Forall_cons in G as [[[typ v] E] _].
  unfold loop_round. simpl. rewrite E. reflexivity.
Qed.

Lemma TokenStream_new_returns text : TokenStream_new text = Return (stream_of text).
Proof. unfold stream_of. rewrite TokenStream_new_eq. reflexivity. Qed.

(** The tokens made of well-formed items. *)
Lemma item_token_classify it typ v :
  classify it = Some (typ, v) -> item_token it = Some (mkToken typ v (Some (0, 0))).
Proof. intros H. unfold item_token. rewrite H. reflexivity. Qed.

Lemma tokens_located (its : list item) :
  Forall (fun t => loc t = Some (0, 0)) (omap item_token its).
Proof.
  induction its as [|it its IH]; simpl; [constructor|].
  unfold item_token at 1.
  destruct (classify it) as [[typ v]|]; [constructor; [reflexivity|exact IH]|exact IH].
Qed.

(** After the loop the stream stays where it is: [current] is what it
    was and every call raises [StopIteration]. *)
Lemma advance_n_finished text cur g n :
  g = GenAfterLoop \/ g = GenDone ->
  current (advance_n n (mkTokenStream text cur g)) = cur
  /\ fst (__next__ (advance_n n (mkTokenStream text cur g))) = Raise StopIteration.
Proof.
  revert g. induction n as [|n IH]; intros g Hg.
  - destruct Hg as [-> | ->]; split; reflexivity.
  - destruct Hg as [-> | ->]; simpl; apply IH; right; reflexivity.
Qed.

Lemma omap_cons_Some {A B} (f : A -> option B) (x : A) (y : B) (l : list A) :
  f x = Some y -> omap f (x :: l) = y :: omap f l.
Proof. intros H. simpl. rewrite H. reflexivity. Qed.

(** The cursor over the pending items: the tokens come out in order,
    one call behind [current], then the sentinel, then the end. *)
Lemma advance_n_in_loop text pending :
  Forall good_item pending ->
  forall cur tv n,
    let ts := mkTokenStream text cur (GenInLoop pending tv) in
    let toks := cur :: omap item_token pending in
    current (advance_n n ts) = nth n (toks ++ [EOF_TOKEN]) EOF_TOKEN
    /\ ((n < List.length toks)%nat ->
        fst (__next__ (advance_n n ts)) = Return (nth n toks EOF_TOKEN))
    /\ ((List.length toks <= n)%nat ->
        fst (__next__ (advance_n n ts)) = Raise StopIteration).
Proof.
  induction 1 as [|it pending [[typ v] E] _ IH]; intros cur tv n ts toks;
    subst ts toks.
  - destruct n as [|n].
    + split; [reflexivity|]. split; [reflexivity|]. simpl. lia.
    + change (advance_n (S n) (mkTokenStream text cur (GenInLoop [] tv)))
        with (advance_n n (mkTokenStream text EOF_TOKEN GenAfterLoop)).
      destruct (advance_n_finished text EOF_TOKEN GenAfterLoop n) as [Hc Hn];
        [left; reflexivity|].
      rewrite Hc, Hn. split; [destruct n as [|[|?]]; reflexivity|].
      split; [simpl; lia|reflexivity].
  - rewrite (omap_cons_Some _ _ _ _ (item_token_classify _ _ _ E)).
    destruct n as [|n].
    + split; [reflexivity|]. split; [|simpl; lia].
      intros _. simpl. rewrite (next_in_loop_cons _ _ _ _ _ _ _ E). reflexivity.
    + change (advance_n (S n) (mkTokenStream text cur (GenInLoop (it :: pending) tv)))
        with (advance_n n (snd (__next__
                (mkTokenStream text cur (GenInLoop (it :: pending) tv))))).
      rewrite (next_in_loop_cons _ _ _ _ _ _ _ E).
      destruct (IH (mkToken typ v (Some (0, 0))) (Some (typ, v)) n) as (H1 & H2 & H3).
      split; [exact H1|]. split.
      * intros Hlt. apply H2. simpl in Hlt |- *. lia.
      * intros Hle. apply H3. simpl in Hle |- *. lia.
Qed.

End StreamFacts.

Lemma stream_of_cases (text : string) :
  (stream_of text = mkTokenStream text EOF_TOKEN GenAfterLoop /\ tokenize text = [])
  \/ (exists pending typ v,
        Forall good_item pending
        /\ stream_of text
           = mkTokenStream text (mkToken typ v (Some (0, 0)))
               (GenInLoop pending (Some (typ, v)))
        /\ tokenize text = mkToken typ v (Some (0, 0)) :: omap item_token pending).
Proof.
  unfold stream_of, tokenize. rewrite TokenStream_new_eq.
  pose proof (findall_good text) as G.
  destruct (findall text) as [|it pending]; [left; split; reflexivity|].
  apply Forall_cons in G as [[[typ v] E] G].
  right. exists pending, typ, v. rewrite E.
  split; [exact G|]. split; [reflexivity|].
  apply omap_cons_Some, item_token_classify, E.
Qed.

(** The sentinel differs from every token made of the text: those carry
    a location. *)
Lemma nth_sentinel (toks : list Token) (j : nat) :
  Forall (fun t => loc t = Some (0, 0)) toks ->
  nth j (toks ++ [EOF_TOKEN]) EOF_TOKEN = EOF_TOKEN <-> (List.length toks <= j)%nat.
Proof.
  intros H. revert j. induction H as [|t toks Ht _ IH]; intros j.
  - destruct j as [|[|?]]; simpl; split; intros; try reflexivity; lia.
  - destruct j as [|j]; simpl.
    + split; [|lia]. intros ->. discriminate Ht.
    + rewrite IH. lia.
Qed.

(** C8.  The constructor returns, and the stream it returns is a cursor
    over the tokens [t1 .. tn] of the text followed by the sentinel:
    after [k] calls of [next], [current] is [t(k+1)], and the sentinel
    from the [n]-th call on; while tokens remain, the next call returns
    the token that was current; and once [current] is the sentinel it
    stays the sentinel whatever is called. *)
Theorem token_stream_cursor (text : string) :
  TokenStream_new text = Return (stream_of text)
  /\ (forall k,
        current (advance_n k (stream_of text))
        = nth k (tokenize text ++ [EOF_TOKEN]) EOF_TOKEN)
  /\ (forall k,
        (k < List.length (tokenize text))%nat ->
        __next__ (advance_n k (stream_of text))
        = (Return (nth k (tokenize text) EOF_TOKEN), advance_n (S k) (stream_of text)))
  /\ (forall j k,
        current (advance_n j (stream_of text)) = EOF_TOKEN ->
        current (advance_n (j + k) (stream_of text)) = EOF_TOKEN).
Proof.
  split; [apply TokenStream_new_returns|].
  assert (C : forall k,
             current (advance_n k (stream_of text))
             = nth k (tokenize text ++ [EOF_TOKEN]) EOF_TOKEN).
  { intros k. destruct (stream_of_cases text) as [[-> ->]|(pending & typ & v & G & -> & ->)].
    - destruct (advance_n_finished text EOF_TOKEN GenAfterLoop k) as [Hc _];
        [left; reflexivity|].
      rewrite Hc. destruct k as [|[|?]]; reflexivity.
    - apply (advance_n_in_loop text pending G). }
  split; [exact C|]. split.
  - intros k Hk. rewrite advance_n_S.
    rewrite (surjective_pairing (__next__ (advance_n k (stream_of text)))) at 1.
    f_equal. revert Hk.
    destruct (stream_of_cases text) as [[-> ->]|(pending & typ & v & G & -> & ->)].
    + simpl. lia.
    + apply (advance_n_in_loop text pending G).
  - intros j k H. rewrite C in *.
    assert (L : Forall (fun t => loc t = Some (0, 0)) (tokenize text))
      by apply tokens_located.
    apply (nth_sentinel _ _ L) in H. apply (nth_sentinel _ _ L). lia.
Qed.

Lemma token_stream_cursor_witness :
  TokenStream_new "7 +" = Return (stream_of "7 +")
  /\ current (stream_of "7 +") = mkToken "number" (VInt 7) (Some (0, 0))
  /\ __next__ (stream_of "7 +")
     = (Return (mkToken "number" (VInt 7) (Some (0, 0))), advance_n 1 (stream_of "7 +"))
  /\ current (advance_n 1 (stream_of "7 +")) = mkToken "+" (VStr "+") (Some (0, 0))
  /\ current (advance_n 2 (stream_of "7 +")) = EOF_TOKEN
  /\ current (advance_n 5 (stream_of "7 +")) = EOF_TOKEN.
Proof.
  pose proof (token_stream_cursor "7 +") as (H0 & Hc & Hn & He).
  split; [exact H0|].
  split; [exact (Hc 0%nat)|].
  split; [apply (Hn 0%nat); vm_compute; lia|].
  split; [exact (Hc 1%nat)|].
  split; [exact (Hc 2%nat)|].
  apply (He 2%nat 3%nat). exact (Hc 2%nat).
Defined.

(** What holds of every stream a program can hold: inside the loop the
    pending items are well formed and [current] is a token of the text;
    after the loop [current] is the sentinel. *)
Definition stream_inv (ts : TokenStream) : Prop :=
  match _stream ts with
  | GenCreated => False
  | GenInLoop pending _ => Forall good_item pending /\ loc (current ts) = Some (0, 0)
  | GenAfterLoop | GenDone => current ts = EOF_TOKEN
  end.

Lemma stream_inv_next (ts : TokenStream) :
  stream_inv ts -> stream_inv (snd (__next__ ts)).
Proof.
  destruct ts as [text cur g]. unfold stream_inv. simpl.
  destruct g as [|pending tv| |]; simpl; try tauto.
  intros [G _]. unfold __next__, loop_round. simpl.
  destruct G as [|it pending [[typ v] E] G]; [reflexivity|].
  rewrite E. simpl. split; [exact G|reflexivity].
Qed.

Lemma reachable_inv (ts : TokenStream) : reachable ts -> stream_inv ts.
Proof.
  induction 1 as [text ts H|ts _ IH]; [|apply stream_inv_next, IH].
  rewrite TokenStream_new_returns in H. injection H as <-.
  destruct (stream_of_cases text) as [[-> _]|(pending & typ & v & G & -> & _)].
  - reflexivity.
  - split; [exact G|reflexivity].
Qed.

(** C10.  On a stream built by the constructor and advanced any number
    of times, a call of [next] raises [StopIteration] exactly when
    [current] is the sentinel, and otherwise returns the token that was
    current; it never raises a [ParseError]; and once [current] is the
    sentinel, every further call raises [StopIteration] and leaves the
    sentinel in [current]. *)
Theorem next_at_eof_stops_iteration (ts : TokenStream) :
  reachable ts ->
  (current ts = EOF_TOKEN <-> fst (__next__ ts) = Raise StopIteration)
  /\ (current ts = EOF_TOKEN ->
      forall n,
        fst (__next__ (advance_n n ts)) = Raise StopIteration
        /\ current (advance_n (S n) ts) = EOF_TOKEN)
  /\ (forall msg, fst (__next__ ts) <> Raise (ParseError msg))
  /\ (current ts <> EOF_TOKEN -> fst (__next__ ts) = Return (current ts)).
Proof.
  intros R. apply reachable_inv in R.
  destruct ts as [text cur g]. unfold stream_inv in R. simpl in R.
  assert (F : g = GenAfterLoop \/ g = GenDone -> cur = EOF_TOKEN ->
              forall n,
                fst (__next__ (advance_n n (mkTokenStream text cur g)))
                = Raise StopIteration
                /\ current (advance_n (S n) (mkTokenStream text cur g)) = EOF_TOKEN).
  { intros Hg -> n. split; apply advance_n_finished; exact Hg. }
  destruct g as [|pending tv| |]; [contradiction| | |].
  - destruct R as [G L].
    assert (N : cur <> EOF_TOKEN) by (intros ->; discriminate L).
    assert (E : fst (__next__ (mkTokenStream text cur (GenInLoop pending tv)))
                = Return cur).
    { destruct G as [|it pending [[typ v] E] G]; [reflexivity|].
      rewrite (next_in_loop_cons _ _ _ _ _ _ _ E). reflexivity. }
    simpl. rewrite E. split; [split; [contradiction|discriminate]|].
    split; [contradiction|]. split; [discriminate|reflexivity].
  - simpl in R. split; [split; [reflexivity|intros _; exact R]|].
    split; [apply F; left; reflexivity|]. split; [discriminate|contradiction].
  - simpl in R. split; [split; [reflexivity|intros _; exact R]|].
    split; [apply F; right; reflexivity|]. split; [discriminate|contradiction].
Qed.

Lemma next_at_eof_stops_iteration_witness :
  (current (stream_of "1") = EOF_TOKEN
   <-> fst (__next__ (stream_of "1")) = Raise StopIteration)
  /\ (current (advance_n 1 (stream_of "1")) = EOF_TOKEN
      <-> fst (__next__ (advance_n 1 (stream_of "1"))) = Raise StopIteration)
  /\ fst (__next__ (stream_of "1")) = Return (mkToken "number" (VInt 1) (Some (0, 0)))
  /\ fst (__next__ (advance_n 1 (stream_of "1"))) = Raise StopIteration.
Proof.
  assert (R0 : reachable (stream_of "1")).
  { apply (reachable_new "1"). reflexivity. }
  assert (R1 : reachable (advance_n 1 (stream_of "1"))).
  { apply reachable_next, R0. }
  split; [apply (next_at_eof_stops_iteration _ R0)|].
  split; [apply (next_at_eof_stops_iteration _ R1)|].
  split; reflexivity.
Defined.

(** ** The scanner: one round, and the fuel it needs *)

Lemma scan_fuel (f1 f2 : nat) (text : string) :
  (String.length text < f1)%nat -> (String.length text < f2)%nat ->
  scan f1 text = scan f2 text.
Proof.
  revert f2 text. induction f1 as [|f1 IH]; intros f2 text H1 H2; [lia|].
  destruct f2 as [|f2]; [lia|]. simpl.
  destruct (match_at text) as [[it rest]|] eqn:E.
  - apply match_at_spec in E as [_ L]. f_equal. apply IH; lia.
  - destruct text as [|c text]; [reflexivity|]. simpl in *. apply IH; lia.
Qed.

Lemma scan_unfold (fuel : nat) (text : string) :
  scan (S fuel) text
  = match match_at text with
    | Some (it, rest) => it :: scan fuel rest
    | None =>
        match text with
        | EmptyString => []
        | String _ text' => scan fuel text'
        end
    end.
Proof. reflexivity. Qed.

Lemma findall_empty : findall EmptyString = [].
Proof. reflexivity. Qed.

Lemma findall_match (text : string) (it : item) (rest : string) :
  match_at text = Some (it, rest) -> findall text = it :: findall rest.
Proof.
  intros E. unfold findall. rewrite scan_unfold, E. f_equal.
  apply match_at_spec in E as [_ L]. apply scan_fuel; lia.
Qed.

Lemma findall_skip (c : ascii) (text : string) :
  match_at (String c text) = None -> findall (String c text) = findall text.
Proof. intros E. unfold findall. rewrite scan_unfold, E. reflexivity. Qed.

Lemma tokenize_match (text : string) (it : item) (rest : string) (typ : string) (v : value) :
  match_at text = Some (it, rest) -> classify it = Some (typ, v) ->
  tokenize text = mkToken typ v (Some (0, 0)) :: tokenize rest.
Proof.
  intros E C. unfold tokenize. rewrite (findall_match _ _ _ E).
  apply omap_cons_Some, item_token_classify, C.
Qed.

(** ** Runs of characters *)

Fixpoint all_chars (p : ascii -> bool) (text : string) : bool :=
  match text with
  | EmptyString => true
  | String c text' => p c && all_chars p text'
  end.

(** The text does not go on with a character of the class. *)
Definition ends_run (p : ascii -> bool) (rest : string) : bool :=
  match rest with
  | EmptyString => true
  | String c _ => negb (p c)
  end.

Lemma span_run (p : ascii -> bool) (run rest : string) :
  all_chars p run = true -> ends_run p rest = true ->
  span p (run +:+ rest) = (run, rest).
Proof.
  intros Hr He. induction run as [|c run IH].
  - rewrite string_app_nil_l. destruct rest as [|d rest]; [reflexivity|].
    simpl in He. apply negb_true_iff in He. apply span_cons_false, He.
  - simpl in Hr. apply andb_prop in Hr as [Hc Hr].
    rewrite string_app_cons, (span_cons_true _ _ _ Hc), (IH Hr). reflexivity.
Qed.

(** A character outside the class ends the run, whatever follows. *)
Lemma span_app_stop (p : ascii -> bool) (a : string) (c : ascii) (b : string) :
  p c = false ->
  span p (a +:+ String c b) = (fst (span p a), snd (span p a) +:+ String c b).
Proof.
  intros Hc. induction a as [|d a IH].
  - rewrite string_app_nil_l. rewrite (span_cons_false _ _ _ Hc). reflexivity.
  - rewrite string_app_cons. simpl. destruct (p d).
    + rewrite IH. destruct (span p a). reflexivity.
    + reflexivity.
Qed.

(** ** Character classes *)

(** All 256 characters, for settling a property of characters by
    evaluation. *)
Definition all_ascii : list ascii := map ascii_of_nat (seq 0 256).

Lemma all_ascii_complete (c : ascii) : In c all_ascii.
Proof.
  unfold all_ascii. apply in_map_iff. exists (nat_of_ascii c). split.
  - apply ascii_nat_embedding.
  - apply in_seq. pose proof (nat_ascii_bounded c). lia.
Qed.

Lemma forall_ascii (P : ascii -> bool) :
  forallb P all_ascii = true -> forall c, P c = true.
Proof.
  intros H c. rewrite forallb_forall in H. apply H, all_ascii_complete.
Qed.

(** The classes of the four alternatives exclude white space; a digit
    is a word character; the two symbol classes exclude the word class
    and each other. *)
Lemma classes_disjoint (c : ascii) :
  (negb (is_space c)
   || negb (is_digit c) && negb (is_word c) && negb (is_op c) && negb (is_bracket c))
  && (negb (is_digit c) || is_word c)
  && (negb (is_op c) || negb (is_word c) && negb (is_bracket c))
  && (negb (is_bracket c) || negb (is_word c))
  = true.
Proof. revert c. apply forall_ascii. vm_compute. reflexivity. Qed.

Lemma space_not_token (c : ascii) :
  is_space c = true ->
  is_digit c = false /\ is_word c = false /\ is_op c = false /\ is_bracket c = false.
Proof.
  intros H. pose proof (classes_disjoint c) as G. rewrite H in G.
  destruct (is_digit c), (is_word c), (is_op c), (is_bracket c);
    simpl in G; try discriminate G; repeat split.
Qed.

Lemma op_not_word (c : ascii) :
  is_op c = true -> is_word c = false /\ is_digit c = false /\ is_bracket c = false.
Proof.
  intros H. pose proof (classes_disjoint c) as G. rewrite H in G.
  destruct (is_space c), (is_digit c), (is_word c), (is_bracket c);
    simpl in G; try discriminate G; repeat split.
Qed.

Lemma bracket_not_other (c : ascii) :
  is_bracket c = true -> is_word c = false /\ is_digit c = false /\ is_op c = false.
Proof.
  intros H. pose proof (classes_disjoint c) as G. rewrite H in G.
  destruct (is_space c), (is_digit c), (is_word c), (is_op c);
    simpl in G; try discriminate G; repeat split.
Qed.

(** A character of a token class is not white space. *)
Lemma token_not_space (c : ascii) :
  is_digit c = true \/ is_word c = true \/ is_op c = true \/ is_bracket c = true ->
  is_space c = false.
Proof.
  intros H. destruct (is_space c) eqn:E; [|reflexivity].
  destruct (space_not_token c E) as (H1 & H2 & H3 & H4).
  destruct H as [H|[H|[H|H]]]; congruence.
Qed.

(** The white space before a token is skipped. *)
Lemma skip_space (ws : string) (c : ascii) (body : string) :
  all_chars is_space ws = true -> is_space c = false ->
  snd (span is_space (ws +:+ String c body)) = String c body.
Proof.
  intros Hw Hc. rewrite (span_run is_space ws (String c body) Hw); [reflexivity|].
  simpl. rewrite Hc. reflexivity.
Qed.

Section MatchAt.

Variables (ws rest : string).
Hypothesis Hws : all_chars is_space ws = true.

Lemma match_at_number (run : string) :
  nonempty run = true -> all_chars is_digit run = true -> ends_run is_digit rest = true ->
  match_at (ws +:+ run +:+ rest) = Some ((run, EmptyString, EmptyString, EmptyString), rest).
Proof.
  intros Hn Hr He. destruct run as [|c run]; [discriminate|].
  pose proof Hr as Hc. simpl in Hc. apply andb_prop in Hc as [Hc _].
  unfold match_at. rewrite string_app_cons, skip_space;
    [|exact Hws|apply token_not_space; left; exact Hc].
  rewrite Hc. rewrite <- string_app_cons, (span_run _ _ _ Hr He). reflexivity.
Qed.

Lemma match_at_operator (run : string) :
  nonempty run = true -> all_chars is_op run = true -> ends_run is_op rest = true ->
  match_at (ws +:+ run +:+ rest) = Some ((EmptyString, EmptyString, run, EmptyString), rest).
Proof.
  intros Hn Hr He. destruct run as [|c run]; [discriminate|].
  pose proof Hr as Hc. simpl in Hc. apply andb_prop in Hc as [Hc _].
  destruct (op_not_word c Hc) as (Hw & Hd & _).
  unfold match_at. rewrite string_app_cons, skip_space;
    [|exact Hws|apply token_not_space; right; right; left; exact Hc].
  rewrite Hd, Hw, Hc. rewrite <- string_app_cons, (span_run _ _ _ Hr He). reflexivity.
Qed.

Lemma match_at_name (run : string) (c : ascii) :
  is_digit c = false -> all_chars is_word (String c run) = true ->
  ends_run is_word rest = true ->
  match_at (ws +:+ String c run +:+ rest)
  = Some ((EmptyString, String c run, EmptyString, EmptyString), rest).
Proof.
  intros Hd Hr He.
  pose proof Hr as Hc. simpl in Hc. apply andb_prop in Hc as [Hc _].
  unfold match_at. rewrite string_app_cons, skip_space;
    [|exact Hws|apply token_not_space; right; left; exact Hc].
  rewrite Hd, Hc. rewrite <- string_app_cons, (span_run _ _ _ Hr He). reflexivity.
Qed.

Lemma match_at_bracket (c : ascii) :
  is_bracket c = true ->
  match_at (ws +:+ String c rest)
  = Some ((EmptyString, EmptyString, EmptyString, String c EmptyString), rest).
Proof.
  intros Hc. destruct (bracket_not_other c Hc) as (Hw & Hd & Ho).
  unfold match_at. rewrite skip_space;
    [|exact Hws|apply token_not_space; right; right; right; exact Hc].
  rewrite Hd, Hw, Ho, Hc. reflexivity.
Qed.

End MatchAt.

(** The value of a digit run is positional: a further digit multiplies
    by ten and adds. *)
Lemma int_digits_app (acc : Z) (a b : string) :
  int_digits acc (a +:+ b) = int_digits (int_digits acc a) b.
Proof.
  revert acc. induction a as [|c a IH]; intros acc; [reflexivity|].
  rewrite string_app_cons. simpl. apply IH.
Qed.

Lemma int_snoc (run : string) (d : ascii) :
  int (run +:+ String d EmptyString) = 10 * int run + (Z.of_nat (code d) - 48).
Proof. unfold int. rewrite int_digits_app. reflexivity. Qed.

(** C6.  After the white space, the longest run of decimal digits is one
    token of type [number] whose value is the number the digits write;
    the longest run of operator symbols is one token whose type and
    value are the run itself; and a bracket is a token of its own, type
    and value the bracket, whatever follows it.  In each case the scan
    goes on right after the run. *)
Theorem tokenize_maximal_munch (ws rest : string) :
  all_chars is_space ws = true ->
  (forall run,
      nonempty run = true -> all_chars is_digit run = true ->
      ends_run is_digit rest = true ->
      tokenize (ws +:+ run +:+ rest)
      = mkToken "number" (VInt (int run)) (Some (0, 0)) :: tokenize rest)
  /\ (forall run,
        nonempty run = true -> all_chars is_op run = true ->
        ends_run is_op rest = true ->
        tokenize (ws +:+ run +:+ rest)
        = mkToken run (VStr run) (Some (0, 0)) :: tokenize rest)
  /\ (forall c,
        is_bracket c = true ->
        tokenize (ws +:+ String c rest)
        = mkToken (String c EmptyString) (VStr (String c EmptyString)) (Some (0, 0))
            :: tokenize rest)
  /\ (forall run d,
        int (run +:+ String d EmptyString) = 10 * int run + (Z.of_nat (code d) - 48)).
Proof.
  intros Hws. split; [|split; [|split]].
  - intros run Hn Hr He.
    apply (tokenize_match _ _ _ _ _ (match_at_number ws rest Hws run Hn Hr He)).
    destruct run; [discriminate|reflexivity].
  - intros run Hn Hr He.
    apply (tokenize_match _ _ _ _ _ (match_at_operator ws rest Hws run Hn Hr He)).
    destruct run; [discriminate|reflexivity].
  - intros c Hc.
    apply (tokenize_match _ _ _ _ _ (match_at_bracket ws rest Hws c Hc)).
    reflexivity.
  - apply int_snoc.
Qed.

Lemma tokenize_maximal_munch_witness :
  tokenize ("  " +:+ "12" +:+ "+=(3)")
  = mkToken "number" (VInt 12) (Some (0, 0)) :: tokenize "+=(3)"
  /\ tokenize (EmptyString +:+ "+=" +:+ "(3)")
     = mkToken "+=" (VStr "+=") (Some (0, 0)) :: tokenize "(3)"
  /\ tokenize (" " +:+ String "(" "-1)")
     = mkToken "(" (VStr "(") (Some (0, 0)) :: tokenize "-1)".
Proof.
  split; [|split].
  - apply (tokenize_maximal_munch "  " "+=(3)"); reflexivity.
  - apply (tokenize_maximal_munch EmptyString "(3)"); reflexivity.
  - apply (tokenize_maximal_munch " " "-1)"); reflexivity.
Defined.

(** ** Characters that no alternative matches *)

(** A character that is neither white space, nor a digit or word
    character, nor an operator symbol, nor a bracket. *)
Definition unmatched (c : ascii) : bool :=
  negb (is_space c) && negb (is_digit c) && negb (is_word c)
  && negb (is_op c) && negb (is_bracket c).

Lemma unmatched_classes (c : ascii) :
  unmatched c = true ->
  is_space c = false /\ is_digit c = false /\ is_word c = false
  /\ is_op c = false /\ is_bracket c = false.
Proof.
  unfold unmatched. intros H.
  repeat (apply andb_prop in H as [H ?]).
  repeat split; apply negb_true_iff; assumption.
Qed.

(** No match starts at such a character, and a match that starts before
    it ends before it: the attempt on the text up to the character
    decides the attempt on the whole text. *)
Lemma match_at_unmatched (pre post : string) (c : ascii) :
  unmatched c = true ->
  match_at (pre +:+ String c post)
  = match match_at pre with
    | Some (it, rest) => Some (it, rest +:+ String c post)
    | None => None
    end.
Proof.
  intros H. destruct (unmatched_classes c H) as (Hs & Hd & Hw & Ho & Hb).
  unfold match_at. rewrite (span_app_stop _ pre c post Hs). simpl snd.
  destruct (snd (span is_space pre)) as [|d body].
  - rewrite string_app_nil_l, Hd, Hw, Ho, Hb. reflexivity.
  - rewrite string_app_cons.
    destruct (is_digit d); [|destruct (is_word d); [|destruct (is_op d)]].
    + rewrite <- string_app_cons, (span_app_stop _ _ c post Hd).
      destruct (span is_digit (String d body)). reflexivity.
    + rewrite <- string_app_cons, (span_app_stop _ _ c post Hw).
      destruct (span is_word (String d body)). reflexivity.
    + rewrite <- string_app_cons, (span_app_stop _ _ c post Ho).
      destruct (span is_op (String d body)). reflexivity.
    + destruct (is_bracket d); reflexivity.
Qed.

Lemma findall_unmatched (pre post : string) (c : ascii) :
  unmatched c = true ->
  findall (pre +:+ String c post) = findall pre ++ findall post.
Proof.
  intros H.
  assert (K : forall n pre, (String.length pre < n)%nat ->
              findall (pre +:+ String c post) = findall pre ++ findall post).
  { clear pre. induction n as [|n IH]; intros pre Hn; [lia|].
    pose proof (match_at_unmatched pre post c H) as E.
    destruct (match_at pre) as [[it rest]|] eqn:Ep.
    - rewrite (findall_match _ _ _ E), (findall_match _ _ _ Ep).
      apply match_at_spec in Ep as [_ L].
      rewrite IH by lia. reflexivity.
    - destruct pre as [|d pre].
      + rewrite string_app_nil_l in *. rewrite (findall_skip _ _ E). reflexivity.
      + rewrite string_app_cons in *.
        rewrite (findall_skip _ _ E), (findall_skip _ _ Ep).
        simpl in Hn. apply IH. lia. }
  apply (K (S (String.length pre))). lia.
Qed.

(** C5, as the code has it.  A character that no alternative of
    [TOKEN_RE] matches, and that is not white space, yields no token,
    and the scan goes on after it: the tokens of the text are those of
    the part before the character followed by those of the part after
    it.  No error is raised for it; the constructor of the stream
    returns. *)
Theorem unmatched_character_skipped (pre post : string) (c : ascii) :
  unmatched c = true ->
  tokenize (pre +:+ String c post) = tokenize pre ++ tokenize post
  /\ TokenStream_new (pre +:+ String c post)
     = Return (stream_of (pre +:+ String c post)).
Proof.
  intros H. split; [|apply TokenStream_new_returns].
  unfold tokenize. rewrite (findall_unmatched _ _ _ H). apply omap_app.
Qed.

Lemma unmatched_character_skipped_witness :
  tokenize ("1 + " +:+ String "{" " 2")
  = tokenize "1 + " ++ tokenize " 2"
  /\ TokenStream_new ("1 + " +:+ String "{" " 2")
     = Return (stream_of ("1 + " +:+ String "{" " 2")).
Proof. apply (unmatched_character_skipped "1 + " " 2" "{"). reflexivity. Defined.

(** The scan does not stop at such a character.  On [1{2]
    the brace is matched by no alternative, and the digit after it is
    still made a token. *)
Lemma scan_stops_counterexample :
  unmatched "{" = true
  /\ tokenize ("1" +:+ String "{" "2")
     = [mkToken "number" (VInt 1) (Some (0, 0)); mkToken "number" (VInt 2) (Some (0, 0))]
  /\ tokenize ("1" +:+ String "{" "2") <> tokenize "1"
  /\ ~ (forall pre post c,
          unmatched c = true -> tokenize (pre +:+ String c post) = tokenize pre).
Proof.
  split; [reflexivity|]. split; [reflexivity|]. split; [discriminate|].
  intros H. specialize (H "1" "2" "{"%char eq_refl). discriminate H.
Qed.

(** ** The placeholders at work *)

(** Membership in a list of token types, settled by evaluation. *)
Lemma elem_of_by_eval (ty : string) (tys : list string) :
  bool_decide (ty ∈ tys) = true -> ty ∈ tys.
Proof. apply bool_decide_eq_true_1. Qed.

Lemma not_elem_of_by_eval (ty : string) (tys : list string) :
  bool_decide (ty ∈ tys) = false -> ty ∉ tys.
Proof. apply bool_decide_eq_false_1. Qed.

Lemma prefix_only_token_ends_loop_witness :
  parse_loop 1 arith_rule_map 0 (mkNode ERROR_TOKEN []) (stream_of "7")
  = Some (Return (mkNode ERROR_TOKEN []), stream_of "7")
  /\ exists msg,
       parse_loop 1 arith_rule_map (-1) (mkNode ERROR_TOKEN []) (stream_of "7")
       = Some (Raise (ParseError msg), stream_of "7")
       /\ str_contains "can't be used in infix position" msg = true.
Proof.
  assert (Hn : type (current (stream_of "7")) ∈ null_types arith_grammar)
    by (apply elem_of_by_eval; vm_compute; reflexivity).
  assert (Hl : type (current (stream_of "7")) ∉ left_types arith_grammar)
    by (apply not_elem_of_by_eval; vm_compute; reflexivity).
  split.
  - apply (prefix_only_token_ends_loop arith_grammar 0 0 (mkNode ERROR_TOKEN [])
             (stream_of "7") Hn Hl). lia.
  - apply (prefix_only_token_ends_loop arith_grammar 0 (-1) (mkNode ERROR_TOKEN [])
             (stream_of "7") Hn Hl). lia.
Defined.

(** A grammar whose only handler takes the current token and makes no
    call of [parse]. *)
Definition prefix_only_grammar : list registration :=
  [ RegNull (-1) ["number"] null_constant ].

(** The message of the placeholder does not need a recursive call.  On
    the text [7 8] the outermost call of [parse], given the minimum
    binding power -1, raises it: the prefix handler returns [7] without
    calling [parse] (it returns even when the parser it is given never
    answers), [8] is current, a type registered in prefix position only,
    and the loop calls the placeholder. *)
Lemma outermost_call_raises_counterexample :
  type (current (advance_n 1 (stream_of "7 8"))) ∈ null_types prefix_only_grammar
  /\ (type (current (advance_n 1 (stream_of "7 8"))) ∉ left_types prefix_only_grammar)
  /\ null (build prefix_only_grammar) !! "number" = Some (null_constant, -1)
  /\ null_constant (fun _ _ => None) (-1) (stream_of "7 8")
     = Some (Return (mkNode (mkToken "number" (VInt 7) (Some (0, 0))) []),
             advance_n 1 (stream_of "7 8"))
  /\ (forall fuel,
        parse (S (S fuel)) (build prefix_only_grammar) (-1) (stream_of "7 8")
        = Some (Raise (ParseError "<Token number 8> can't be used in infix position"),
                advance_n 1 (stream_of "7 8")))
  /\ str_contains "can't be used in infix position"
       "<Token number 8> can't be used in infix position" = true.
Proof.
  split; [apply elem_of_by_eval; vm_compute; reflexivity|].
  split; [apply not_elem_of_by_eval; vm_compute; reflexivity|].
  split; [vm_compute; reflexivity|].
  split; [reflexivity|].
  split; [intros fuel; reflexivity|].
  vm_compute. reflexivity.
Qed.

Lemma infix_only_token_in_prefix_position_witness :
  exists msg,
    parse 1 arith_rule_map 0 (stream_of "%")
    = Some (Raise (ParseError msg), stream_of "%")
    /\ str_contains "can't be used in prefix position" msg = true.
Proof.
  apply (infix_only_token_in_prefix_position arith_grammar 0 0 (stream_of "%")).
  - apply elem_of_by_eval. vm_compute. reflexivity.
  - apply not_elem_of_by_eval. vm_compute. reflexivity.
  - discriminate.
Defined.

(** A grammar that registers [eof] in infix position only. *)
Definition eof_infix_grammar : list registration :=
  [ RegLeft 1 ["eof"] false left_binary_op ].

(** The type [eof] is the exception: [parse] tests for the end of
    the input before it looks at the table, so the message is the one
    of the end of the input. *)
Lemma eof_in_prefix_position_counterexample :
  "eof" ∈ left_types eof_infix_grammar
  /\ ("eof" ∉ null_types eof_infix_grammar)
  /\ null (build eof_infix_grammar) !! "eof" = Some (raise_null_error, 0)
  /\ TokenStream_new EmptyString = Return (stream_of EmptyString)
  /\ type (current (stream_of EmptyString)) = "eof"
  /\ (forall fuel rbp,
        parse (S fuel) (build eof_infix_grammar) rbp (stream_of EmptyString)
        = Some (Raise (ParseError "Unexpected end of input"), stream_of EmptyString))
  /\ str_contains "can't be used in prefix position" "Unexpected end of input" = false
  /\ ~ (exists fuel msg ts',
          parse fuel (build eof_infix_grammar) 0 (stream_of EmptyString)
          = Some (Raise (ParseError msg), ts')
          /\ str_contains "can't be used in prefix position" msg = true).
Proof.
  assert (P : forall fuel rbp,
             parse (S fuel) (build eof_infix_grammar) rbp (stream_of EmptyString)
             = Some (Raise (ParseError "Unexpected end of input"), stream_of EmptyString)).
  { intros fuel rbp. apply parse_eof. reflexivity. }
  split; [apply elem_of_by_eval; vm_compute; reflexivity|].
  split; [apply not_elem_of_by_eval; vm_compute; reflexivity|].
  split; [vm_compute; reflexivity|].
  split; [reflexivity|]. split; [reflexivity|]. split; [exact P|].
  split; [vm_compute; reflexivity|].
  intros (fuel & msg & ts' & E & C).
  destruct fuel as [|fuel]; [discriminate E|].
  rewrite P in E. injection E as <- _. vm_compute in C. discriminate C.
Qed.

(** ** Termination of the driver *)

(** The call finished within the budget, and if it returned it left
    strictly fewer tokens than it found: it consumed at least one. *)
Definition consumes {A : Type} (ts : TokenStream)
    (r : option (outcome A * TokenStream)) : Prop :=
  match r with
  | None => False
  | Some (Return _, ts') => (remaining ts' < remaining ts)%nat
  | Some (Raise _, _) => True
  end.

(** The call finished within the budget, and if it returned it left no
    more tokens than it found. *)
Definition shrinks {A : Type} (ts : TokenStream)
    (r : option (outcome A * TokenStream)) : Prop :=
  match r with
  | None => False
  | Some (Return _, ts') => (remaining ts' <= remaining ts)%nat
  | Some (Raise _, _) => True
  end.

(** A parser that finishes, consuming, on every stream with fewer than
    [n] tokens left. *)
Definition total_below (n : nat) (p : Parser) : Prop :=
  forall bp ts, (remaining ts < n)%nat -> consumes ts (p bp ts).

(** A handler consumes when it finishes and has consumed at least one
    token whenever it returns, provided the recursive calls it makes on
    what is left of the stream finish and consume. *)
Definition nud_consumes (nud : Nud) : Prop :=
  forall p bp ts, total_below (remaining ts) p -> consumes ts (nud p bp ts).

Definition led_consumes (led : Led) : Prop :=
  forall p bp node ts, total_below (remaining ts) p -> consumes ts (led p bp node ts).

(** Every handler of the table has a property: the prefix handlers
    [PN], the infix handlers [PL]. *)
Definition handlers_satisfy (PN : Nud -> Prop) (PL : Led -> Prop)
    (rule_map : RuleMap) : Prop :=
  (forall ty (nud : Nud) (bp : Z),
      null rule_map !! ty = Some (nud, bp) -> PN nud)
  /\ (forall ty (led : Led) (lbp rbp : Z),
        left rule_map !! ty = Some (led, lbp, rbp) -> PL led).

Definition handlers_consume (rule_map : RuleMap) : Prop :=
  handlers_satisfy nud_consumes led_consumes rule_map.

Lemma consumes_shrinks {A} ts (r : option (outcome A * TokenStream)) :
  consumes ts r -> shrinks ts r.
Proof. destruct r as [[[a|e] ts']|]; simpl; lia. Qed.

Lemma next_consumes (ts : TokenStream) : consumes ts (advance ts).
Proof.
  destruct ts as [text cur g]. unfold advance, __next__, consumes, remaining. simpl.
  destruct g as [|pending tv| |]; simpl; try exact I.
  - destruct (findall text) as [|it pending]; simpl; [lia|].
    destruct (classify it) as [[typ v]|]; simpl; [lia|exact I].
  - destruct pending as [|it pending]; simpl; [lia|].
    destruct (classify it) as [[typ v]|]; simpl.
    + lia.
    + destruct tv as [[typ v]|]; simpl; [lia|exact I].
Qed.

Section Composition.

Context {A B : Type}.
Implicit Types (m : M A) (k : A -> M B).

Lemma consumes_bind m k ts :
  consumes ts (m ts) ->
  (forall a ts1, (remaining ts1 < remaining ts)%nat -> shrinks ts1 (k a ts1)) ->
  consumes ts (bind m k ts).
Proof.
  unfold bind. destruct (m ts) as [[[a|e] ts1]|]; simpl; try tauto.
  intros H K. specialize (K a ts1 H).
  destruct (k a ts1) as [[[b|e] ts2]|]; simpl in *; try tauto. lia.
Qed.

Lemma shrinks_bind m k ts :
  shrinks ts (m ts) ->
  (forall a ts1, (remaining ts1 <= remaining ts)%nat -> shrinks ts1 (k a ts1)) ->
  shrinks ts (bind m k ts).
Proof.
  unfold bind. destruct (m ts) as [[[a|e] ts1]|]; simpl; try tauto.
  intros H K. specialize (K a ts1 H).
  destruct (k a ts1) as [[[b|e] ts2]|]; simpl in *; try tauto. lia.
Qed.

End Composition.

Lemma shrinks_ret {A} (a : A) ts : shrinks ts (ret a ts).
Proof. simpl. lia. Qed.

Lemma shrinks_call (p : Parser) (n : nat) bp ts :
  total_below n p -> (remaining ts < n)%nat -> shrinks ts (p bp ts).
Proof. intros H L. apply consumes_shrinks, H, L. Qed.

Lemma shrinks_eat (token_type : string) ts : shrinks ts (eat token_type ts).
Proof.
  unfold eat.
  destruct (nonempty token_type && negb (String.eqb (type (current ts)) token_type));
    [exact I|].
  apply shrinks_bind; [apply consumes_shrinks, next_consumes|].
  intros; apply shrinks_ret.
Qed.

(** The handlers of the example grammar consume, and so do the
    placeholders, which raise. *)
Lemma null_constant_consumes : nud_consumes null_constant.
Proof.
  intros p bp ts _. unfold null_constant.
  apply consumes_bind; [apply next_consumes|]. intros; apply shrinks_ret.
Qed.

Lemma null_prefix_op_consumes : nud_consumes null_prefix_op.
Proof.
  intros p bp ts Hp. unfold null_prefix_op.
  apply consumes_bind; [apply next_consumes|]. intros t ts1 L1.
  apply shrinks_bind; [apply (shrinks_call p _ bp ts1 Hp L1)|].
  intros; apply shrinks_ret.
Qed.

Lemma null_paren_consumes : nud_consumes null_paren.
Proof.
  intros p bp ts Hp. unfold null_paren.
  apply consumes_bind; [apply next_consumes|]. intros t ts1 L1.
  apply shrinks_bind; [apply (shrinks_call p _ bp ts1 Hp L1)|]. intros r ts2 L2.
  apply shrinks_bind; [apply shrinks_eat|].
  intros; apply shrinks_ret.
Qed.

Lemma left_binary_op_consumes : led_consumes left_binary_op.
Proof.
  intros p bp node ts Hp. unfold left_binary_op.
  apply consumes_bind; [apply next_consumes|]. intros t ts1 L1.
  apply shrinks_bind; [apply (shrinks_call p _ bp ts1 Hp L1)|].
  intros; apply shrinks_ret.
Qed.

Lemma null_error_consumes : nud_consumes null_error.
Proof. intros p bp ts _. exact I. Qed.

Lemma raise_null_error_consumes : nud_consumes raise_null_error.
Proof. intros p bp ts _. exact I. Qed.

Lemma raise_left_error_consumes : led_consumes raise_left_error.
Proof. intros p bp node ts _. exact I. Qed.

(** A property that the placeholders have holds of every handler of a
    table built by decorators whose handlers have it. *)
Section HandlersSatisfy.

Variables (PN : Nud -> Prop) (PL : Led -> Prop).
Hypothesis PN_placeholder : PN raise_null_error.
Hypothesis PL_placeholder : PL raise_left_error.

Definition registration_satisfies (r : registration) : Prop :=
  match r with
  | RegNull _ _ f => PN f
  | RegLeft _ _ _ f => PL f
  end.

Lemma handlers_satisfy_new : handlers_satisfy PN PL RuleMap_new.
Proof.
  split; intros ty h; intros; simpl in *; rewrite lookup_empty in *; discriminate.
Qed.

Lemma handlers_satisfy_register_null_one (f : Nud) bp rule_map ty0 :
  PN f -> handlers_satisfy PN PL rule_map ->
  handlers_satisfy PN PL (register_null_one f bp rule_map ty0).
Proof.
  intros Hf [Hn Hl]. split.
  - intros ty nud bp'. rewrite null_register_null_one.
    destruct (decide (ty0 = ty)) as [->|Hne].
    + rewrite lookup_insert_eq. intros [= <- <-]. exact Hf.
    + rewrite lookup_insert_ne by exact Hne. apply Hn.
  - intros ty led lbp rbp. rewrite left_register_null_one.
    destruct (left rule_map !! ty0) eqn:E; [apply Hl|].
    destruct (decide (ty0 = ty)) as [->|Hne].
    + rewrite lookup_insert_eq. intros [= <- <- <-]. exact PL_placeholder.
    + rewrite lookup_insert_ne by exact Hne. apply Hl.
Qed.

Lemma handlers_satisfy_register_left_one (f : Led) lbp rbp rule_map ty0 :
  PL f -> handlers_satisfy PN PL rule_map ->
  handlers_satisfy PN PL (register_left_one f lbp rbp rule_map ty0).
Proof.
  intros Hf [Hn Hl]. split.
  - intros ty nud bp'. rewrite null_register_left_one.
    destruct (null rule_map !! ty0) eqn:E; [apply Hn|].
    destruct (decide (ty0 = ty)) as [->|Hne].
    + rewrite lookup_insert_eq. intros [= <- <-]. exact PN_placeholder.
    + rewrite lookup_insert_ne by exact Hne. apply Hn.
  - intros ty led lbp' rbp'. rewrite left_register_left_one.
    destruct (decide (ty0 = ty)) as [->|Hne].
    + rewrite lookup_insert_eq. intros [= <- <- <-]. exact Hf.
    + rewrite lookup_insert_ne by exact Hne. apply Hl.
Qed.

Lemma handlers_satisfy_apply rule_map r :
  registration_satisfies r -> handlers_satisfy PN PL rule_map ->
  handlers_satisfy PN PL (apply_registration rule_map r).
Proof.
  destruct r as [bp tys f|bp tys assoc f]; simpl; intros Hf.
  - unfold register_null. revert rule_map.
    induction tys as [|ty0 tys IH]; intros rule_map H; simpl; [exact H|].
    apply IH, handlers_satisfy_register_null_one; assumption.
  - unfold register_left. generalize (if assoc then bp - 1 else bp). intros rbp.
    revert rule_map.
    induction tys as [|ty0 tys IH]; intros rule_map H; simpl; [exact H|].
    apply IH, handlers_satisfy_register_left_one; assumption.
Qed.

Lemma handlers_satisfy_build (rs : list registration) :
  Forall registration_satisfies rs -> handlers_satisfy PN PL (build rs).
Proof.
  unfold build. generalize handlers_satisfy_new. generalize RuleMap_new.
  induction rs as [|r rs IH]; intros rule_map H F; simpl; [exact H|].
  apply Forall_cons in F as [Hr F].
  apply IH; [|exact F]. apply handlers_satisfy_apply; assumption.
Qed.

End HandlersSatisfy.

(** A table built by decorators whose handlers consume has only
    handlers that consume: the placeholders raise. *)
Lemma handlers_consume_build (rs : list registration) :
  Forall (registration_satisfies nud_consumes led_consumes) rs ->
  handlers_consume (build rs).
Proof.
  apply handlers_satisfy_build;
    [apply raise_null_error_consumes|apply raise_left_error_consumes].
Qed.

Lemma arith_handlers_consume : handlers_consume arith_rule_map.
Proof.
  apply handlers_consume_build. unfold arith_grammar.
  repeat match goal with |- Forall _ _ => constructor end; simpl.
  - apply null_constant_consumes.
  - apply null_paren_consumes.
  - apply null_prefix_op_consumes.
  - apply left_binary_op_consumes.
  - apply left_binary_op_consumes.
  - apply left_binary_op_consumes.
  - apply null_error_consumes.
Qed.

Section Termination.

Variable rule_map : RuleMap.
Hypothesis consuming : handlers_consume rule_map.

(** The loop, when [parse] is known to finish on every stream shorter
    than the one the loop starts on. *)
Lemma parse_loop_finishes (bound : nat) :
  (forall ts bp fuel,
      (remaining ts < bound)%nat -> (2 * remaining ts + 2 <= fuel)%nat ->
      consumes ts (parse fuel rule_map bp ts)) ->
  forall n ts rbp node fuel,
    remaining ts = n -> (n <= bound)%nat -> (2 * n + 1 <= fuel)%nat ->
    shrinks ts (parse_loop fuel rule_map rbp node ts).
Proof.
  intros Hp. induction n as [n IH] using lt_wf_ind.
  intros ts rbp node fuel Hn Hb Hf.
  destruct fuel as [|fuel]; [lia|]. rewrite parse_loop_unfold.
  destruct (left rule_map !! type (current ts)) as [[[led lbp] rbp']|] eqn:E;
    [|exact I].
  destruct (lbp <=? rbp)%Z; [simpl; lia|].
  assert (T : total_below (remaining ts) (parse fuel rule_map)).
  { intros bp ts' L. apply Hp; lia. }
  pose proof (proj2 consuming _ _ _ _ E (parse fuel rule_map) rbp' node ts T) as C.
  destruct (led (parse fuel rule_map) rbp' node ts) as [[[node'|e] ts']|];
    simpl in C; [|exact I|contradiction].
  specialize (IH (remaining ts') ltac:(lia) ts' rbp node' fuel eq_refl
                ltac:(lia) ltac:(lia)).
  destruct (parse_loop fuel rule_map rbp node' ts') as [[[r|e] ts'']|];
    simpl in *; try tauto. lia.
Qed.

(** [parse] finishes on every stream, within a budget linear in the
    number of tokens left. *)
Lemma parse_finishes :
  forall n ts rbp fuel,
    remaining ts = n -> (2 * n + 2 <= fuel)%nat ->
    consumes ts (parse fuel rule_map rbp ts).
Proof.
  induction n as [n IH] using lt_wf_ind.
  intros ts rbp fuel Hn Hf.
  destruct fuel as [|fuel]; [lia|]. rewrite parse_unfold.
  destruct (String.eqb (type (current ts)) "eof"); [exact I|].
  destruct (null rule_map !! type (current ts)) as [[nud bp]|] eqn:E; [|exact I].
  assert (Hp : forall ts' bp' fuel',
             (remaining ts' < n)%nat -> (2 * remaining ts' + 2 <= fuel')%nat ->
             consumes ts' (parse fuel' rule_map bp' ts')).
  { intros ts' bp' fuel' L F. apply (IH (remaining ts') L); [reflexivity|exact F]. }
  assert (T : total_below (remaining ts) (parse fuel rule_map)).
  { intros bp' ts' L. apply Hp; lia. }
  pose proof (proj1 consuming _ _ _ E (parse fuel rule_map) bp ts T) as C.
  destruct (nud (parse fuel rule_map) bp ts) as [[[node|e] ts']|];
    simpl in C; [|exact I|contradiction].
  pose proof (parse_loop_finishes n Hp (remaining ts') ts' rbp node fuel eq_refl
                ltac:(lia) ltac:(lia)) as L.
  destruct (parse_loop fuel rule_map rbp node ts') as [[[r|e] ts'']|];
    simpl in *; try tauto. lia.
Qed.

End Termination.

(** C4, as the code has it.  When every handler of the table consumes
    at least one token each time it returns, [parse] finishes on every
    stream, returning or raising, within a budget linear in the number
    of tokens left.  When the loop reaches the sentinel, what happens
    depends on the table: without an infix entry for [eof] the loop
    raises the error of an unexpected token; with an entry whose left
    binding power is at most [rbp] (such as the placeholder of
    [register_null], for [rbp] 0 or more) the stopping rule returns the
    left operand. *)
Theorem parse_terminates (rule_map : RuleMap) (rbp : Z) (ts : TokenStream) :
  handlers_consume rule_map ->
  (forall fuel,
      (2 * remaining ts + 2 <= fuel)%nat ->
      exists o ts', parse fuel rule_map rbp ts = Some (o, ts'))
  /\ (forall fuel node,
        current ts = EOF_TOKEN ->
        left rule_map !! "eof" = None ->
        parse_loop (S fuel) rule_map rbp node ts
        = Some (Raise (ParseError "Unexpected token <Token eof eof>"), ts))
  /\ (forall fuel node (led : Led) (lbp rbp' : Z),
        current ts = EOF_TOKEN ->
        left rule_map !! "eof" = Some (led, lbp, rbp') ->
        lbp <= rbp ->
        parse_loop (S fuel) rule_map rbp node ts = Some (Return node, ts)).
Proof.
  intros H. split; [|split].
  - intros fuel Hf.
    pose proof (parse_finishes rule_map H (remaining ts) ts rbp fuel eq_refl Hf) as C.
    destruct (parse fuel rule_map rbp ts) as [[o ts']|]; [|contradiction].
    exists o, ts'. reflexivity.
  - intros fuel node Hc E.
    rewrite parse_loop_no_infix_rule; rewrite Hc; [reflexivity|exact E].
  - intros fuel node led lbp rbp' Hc E Hle.
    apply (parse_loop_stop _ _ _ _ _ led lbp rbp'); [rewrite Hc; exact E|exact Hle].
Qed.

Lemma parse_terminates_witness :
  (forall fuel,
      (2 * remaining (stream_of "1+2*3") + 2 <= fuel)%nat ->
      exists o ts', parse fuel arith_rule_map 0 (stream_of "1+2*3") = Some (o, ts'))
  /\ remaining (stream_of "1+2*3") = 5%nat
  /\ parse_text 12 arith_rule_map "1+2*3" = Some (Return "(+ 1 (* 2 3))").
Proof.
  split; [|split; reflexivity].
  apply (parse_terminates arith_rule_map 0 (stream_of "1+2*3") arith_handlers_consume).
Defined.

(** A grammar of numbers alone: [eof] is registered nowhere. *)
Definition number_grammar : list registration :=
  [ RegNull (-1) ["number"] null_constant ].

(** The sentinel alone does not make the outermost call return its
    left operand.  On this grammar and the text [1] the handlers
    consume, the prefix handler returns the operand [1] and leaves the
    sentinel current, [eof] has no infix entry, and the loop raises;
    no budget makes [parse] return. *)
Lemma eof_unregistered_counterexample :
  handlers_consume (build number_grammar)
  /\ null_constant (parse 1 (build number_grammar)) (-1) (stream_of "1")
     = Some (Return (mkNode (mkToken "number" (VInt 1) (Some (0, 0))) []),
             advance_n 1 (stream_of "1"))
  /\ current (advance_n 1 (stream_of "1")) = EOF_TOKEN
  /\ left (build number_grammar) !! "eof" = None
  /\ (forall fuel,
        parse (S (S fuel)) (build number_grammar) 0 (stream_of "1")
        = Some (Raise (ParseError "Unexpected token <Token eof eof>"),
                advance_n 1 (stream_of "1")))
  /\ ~ (exists fuel node ts',
          parse fuel (build number_grammar) 0 (stream_of "1") = Some (Return node, ts')).
Proof.
  assert (P : forall fuel,
             parse (S (S fuel)) (build number_grammar) 0 (stream_of "1")
             = Some (Raise (ParseError "Unexpected token <Token eof eof>"),
                     advance_n 1 (stream_of "1"))).
  { intros fuel. reflexivity. }
  split.
  { apply handlers_consume_build. repeat constructor. apply null_constant_consumes. }
  split; [reflexivity|]. split; [reflexivity|]. split; [reflexivity|].
  split; [exact P|].
  intros (fuel & node & ts' & E).
  destruct fuel as [|[|fuel]]; [discriminate E|discriminate E|].
  rewrite P in E. discriminate E.
Qed.

(** ** The budget is only a budget *)

(** [q] extends [p]: wherever [p] finishes, [q] finishes with the same
    result. *)
Definition extends (p q : Parser) : Prop :=
  forall bp ts r, p bp ts = Some r -> q bp ts = Some r.

(** A handler is monotone when a recursive parser that finishes more
    often cannot change a result the handler already had. *)
Definition nud_monotone (nud : Nud) : Prop :=
  forall p q, extends p q ->
  forall bp ts r, nud p bp ts = Some r -> nud q bp ts = Some r.

Definition led_monotone (led : Led) : Prop :=
  forall p q, extends p q ->
  forall bp node ts r, led p bp node ts = Some r -> led q bp node ts = Some r.

Definition handlers_monotone (rule_map : RuleMap) : Prop :=
  handlers_satisfy nud_monotone led_monotone rule_map.

(** The handlers of the example grammar are monotone: they pass on what
    the recursive parser gives them. *)
Lemma null_constant_monotone : nud_monotone null_constant.
Proof. intros p q _ bp ts r H. exact H. Qed.

Lemma null_error_monotone : nud_monotone null_error.
Proof. intros p q _ bp ts r H. exact H. Qed.

Lemma raise_null_error_monotone : nud_monotone raise_null_error.
Proof. intros p q _ bp ts r H. exact H. Qed.

Lemma raise_left_error_monotone : led_monotone raise_left_error.
Proof. intros p q _ bp node ts r H. exact H. Qed.

Lemma null_prefix_op_monotone : nud_monotone null_prefix_op.
Proof.
  intros p q H bp ts r. unfold null_prefix_op, bind, advance.
  destruct (__next__ ts) as [[t|e] ts1]; [|trivial].
  destruct (p bp ts1) as [x|] eqn:E; [|discriminate].
  rewrite (H _ _ _ E). trivial.
Qed.

Lemma null_paren_monotone : nud_monotone null_paren.
Proof.
  intros p q H bp ts r. unfold null_paren, bind, advance.
  destruct (__next__ ts) as [[t|e] ts1]; [|trivial].
  destruct (p bp ts1) as [x|] eqn:E; [|discriminate].
  rewrite (H _ _ _ E). trivial.
Qed.

Lemma left_binary_op_monotone : led_monotone left_binary_op.
Proof.
  intros p q H bp node ts r. unfold left_binary_op, bind, advance.
  destruct (__next__ ts) as [[t|e] ts1]; [|trivial].
  destruct (p bp ts1) as [x|] eqn:E; [|discriminate].
  rewrite (H _ _ _ E). trivial.
Qed.

Lemma arith_handlers_monotone : handlers_monotone arith_rule_map.
Proof.
  apply handlers_satisfy_build;
    [apply raise_null_error_monotone|apply raise_left_error_monotone|].
  unfold arith_grammar.
  repeat match goal with |- Forall _ _ => constructor end; simpl.
  - apply null_constant_monotone.
  - apply null_paren_monotone.
  - apply null_prefix_op_monotone.
  - apply left_binary_op_monotone.
  - apply left_binary_op_monotone.
  - apply left_binary_op_monotone.
  - apply null_error_monotone.
Qed.

Section FuelMonotone.

Variable rule_map : RuleMap.
Hypothesis monotone : handlers_monotone rule_map.

(** A result reached within a budget is the result within every larger
    budget. *)
Lemma parse_fuel_S (fuel : nat) :
  extends (parse fuel rule_map) (parse (S fuel) rule_map)
  /\ (forall rbp node ts r,
        parse_loop fuel rule_map rbp node ts = Some r ->
        parse_loop (S fuel) rule_map rbp node ts = Some r).
Proof.
  induction fuel as [|fuel [IHp IHl]]; [split; intros; discriminate|].
  split.
  - intros rbp ts r. rewrite (parse_unfold _ (S fuel)), (parse_unfold _ fuel).
    destruct (String.eqb (type (current ts)) "eof"); [trivial|].
    destruct (null rule_map !! type (current ts)) as [[nud bp]|] eqn:E; [|trivial].
    destruct (nud (parse fuel rule_map) bp ts) as [x|] eqn:N; [|discriminate].
    rewrite (proj1 monotone _ _ _ E _ _ IHp _ _ _ N).
    destruct x as [[node|e] ts']; [apply IHl|trivial].
  - intros rbp node ts r.
    rewrite (parse_loop_unfold _ (S fuel)), (parse_loop_unfold _ fuel).
    destruct (left rule_map !! type (current ts)) as [[[led lbp] rbp']|] eqn:E;
      [|trivial].
    destruct (lbp <=? rbp)%Z; [trivial|].
    destruct (led (parse fuel rule_map) rbp' node ts) as [x|] eqn:N; [|discriminate].
    rewrite (proj2 monotone _ _ _ _ E _ _ IHp _ _ _ _ N).
    destruct x as [[node'|e] ts']; [apply IHl|trivial].
Qed.

Lemma parse_fuel_le (fuel fuel' : nat) rbp ts r :
  (fuel <= fuel')%nat ->
  parse fuel rule_map rbp ts = Some r -> parse fuel' rule_map rbp ts = Some r.
Proof.
  induction 1 as [|fuel' _ IH]; [trivial|].
  intros H. apply parse_fuel_S, IH, H.
Qed.

End FuelMonotone.

(** With handlers that consume and are monotone, [parse] has one
    result, reached within every budget from the linear bound on. *)
Lemma parse_result_unique (rule_map : RuleMap) (rbp : Z) (ts : TokenStream) :
  handlers_consume rule_map -> handlers_monotone rule_map ->
  exists r, forall fuel,
    (2 * remaining ts + 2 <= fuel)%nat -> parse fuel rule_map rbp ts = Some r.
Proof.
  intros Hc Hm.
  pose proof (parse_finishes rule_map Hc (remaining ts) ts rbp
                (2 * remaining ts + 2) eq_refl (Nat.le_refl _)) as C.
  destruct (parse (2 * remaining ts + 2) rule_map rbp ts) as [r|] eqn:E;
    [|contradiction].
  exists r. intros fuel Hf. apply (parse_fuel_le rule_map Hm _ _ _ _ _ Hf E).
Qed.

(** ** The engine on the inputs of the demo's tests *)

Example test_precedence :
  parse_text 30 arith_rule_map "1+2+3" = Some (Return "(+ (+ 1 2) 3)")
  /\ parse_text 30 arith_rule_map "1+2*3" = Some (Return "(+ 1 (* 2 3))")
  /\ parse_text 30 arith_rule_map "x*y - y*z" = Some (Return "(- (* x y) (* y z))")
  /\ parse_text 30 arith_rule_map "x/y - y%z" = Some (Return "(- (/ x y) (% y z))").
Proof. repeat split; vm_compute; reflexivity. Qed.

Example test_brackets :
  parse_text 30 arith_rule_map "4*(2+3)" = Some (Return "(* 4 (+ 2 3))")
  /\ parse_text 30 arith_rule_map "(2+3)*4" = Some (Return "(* (+ 2 3) 4)").
Proof. repeat split; vm_compute; reflexivity. Qed.

Example test_right_associative :
  parse_text 30 arith_rule_map "2 ** 3 ** 2" = Some (Return "(** 2 (** 3 2))")
  /\ parse_text 30 arith_rule_map "- 3 ** 2" = Some (Return "(- (** 3 2))").
Proof. repeat split; vm_compute; reflexivity. Qed.

Example test_prefix_operators :
  parse_text 30 arith_rule_map "x - -y" = Some (Return "(- x (- y))")
  /\ parse_text 30 arith_rule_map "-1 * -2" = Some (Return "(* (- 1) (- 2))")
  /\ parse_text 30 arith_rule_map "+1 - +2" = Some (Return "(- (+ 1) (+ 2))").
Proof. repeat split; vm_compute; reflexivity. Qed.

Example test_errors :
  parse_text 30 arith_rule_map "%"
  = Some (Raise (ParseError "<Token % %> can't be used in prefix position"))
  /\ parse_text 30 arith_rule_map "{"
     = Some (Raise (ParseError "Unexpected end of input"))
  /\ parse_text 30 arith_rule_map "1 +"
     = Some (Raise (ParseError "Unexpected end of input"))
  /\ parse_text 30 arith_rule_map "(1"
     = Some (Raise (ParseError "expected ), got <Token eof eof>")).
Proof. repeat split; vm_compute; reflexivity. Qed.

Example test_tokens :
  findall " (-1+2) ** x_1 += 12ab"
  = [ (EmptyString, EmptyString, EmptyString, "(");
      (EmptyString, EmptyString, "-", EmptyString);
      ("1", EmptyString, EmptyString, EmptyString);
      (EmptyString, EmptyString, "+", EmptyString);
      ("2", EmptyString, EmptyString, EmptyString);
      (EmptyString, EmptyString, EmptyString, ")");
      (EmptyString, EmptyString, "**", EmptyString);
      (EmptyString, "x_1", EmptyString, EmptyString);
      (EmptyString, EmptyString, "+=", EmptyString);
      ("12", EmptyString, EmptyString, EmptyString);
      (EmptyString, "ab", EmptyString, EmptyString) ]
  /\ int "0042" = 42.
Proof. split; vm_compute; reflexivity. Qed.

(** * Further properties of the engine *)

(** ** What [parse] guarantees when it returns *)

Lemma parse_loop_returns_at_weaker (rule_map : RuleMap) (rbp : Z) (fuel : nat) :
  forall node ts r ts',
    parse_loop fuel rule_map rbp node ts = Some (Return r, ts') ->
    exists (led : Led) (lbp rbp' : Z),
      left rule_map !! type (current ts') = Some (led, lbp, rbp') /\ lbp <= rbp.
Proof.
  induction fuel as [|fuel IH]; intros node ts r ts' H; [discriminate H|].
  rewrite parse_loop_unfold in H.
  destruct (left rule_map !! type (current ts)) as [[[led lbp] rbp']|] eqn:E;
    [|discriminate H].
  destruct (lbp <=? rbp)%Z eqn:Hb.
  - injection H as <- <-. exists led, lbp, rbp'. split; [exact E|].
    apply Z.leb_le, Hb.
  - destruct (led (parse fuel rule_map) rbp' node ts) as [[[node'|e] ts1]|];
      [|discriminate H|discriminate H].
    apply (IH _ _ _ _ H).
Qed.

(** X1.  The docstring of [parse]: it eats tokens until it meets one
    whose binding power is at most [rbp].  Whenever [parse] returns a
    node, the token left current has an infix entry, and the left
    binding power of that entry is at most [rbp]; this holds for every
    table and whatever the handlers do. *)
Theorem parse_returns_at_weaker_token
    (rule_map : RuleMap) (fuel : nat) (rbp : Z) (ts ts' : TokenStream) (node : Node) :
  parse fuel rule_map rbp ts = Some (Return node, ts') ->
  exists (led : Led) (lbp rbp' : Z),
    left rule_map !! type (current ts') = Some (led, lbp, rbp') /\ lbp <= rbp.
Proof.
  destruct fuel as [|fuel]; [discriminate|].
  rewrite parse_unfold.
  destruct (String.eqb (type (current ts)) "eof"); [discriminate|].
  destruct (null rule_map !! type (current ts)) as [[nud bp]|]; [|discriminate].
  destruct (nud (parse fuel rule_map) bp ts) as [[[node0|e] ts0]|];
    [|discriminate|discriminate].
  apply parse_loop_returns_at_weaker.
Qed.

(** The right operand of [*] in [2*3+4], parsed with the right binding
    power 25 of [*]: [parse] returns [3] and leaves [+], of left binding
    power 23, current. *)
Lemma parse_returns_at_weaker_token_witness :
  parse 9 arith_rule_map 25 (advance_n 2 (stream_of "2*3+4"))
  = Some (Return (mkNode (mkToken "number" (VInt 3) (Some (0, 0))) []),
          advance_n 3 (stream_of "2*3+4"))
  /\ type (current (advance_n 3 (stream_of "2*3+4"))) = "+"
  /\ exists (led : Led) (lbp rbp' : Z),
       left arith_rule_map !! type (current (advance_n 3 (stream_of "2*3+4")))
       = Some (led, lbp, rbp')
       /\ lbp <= 25.
Proof.
  split; [reflexivity|]. split; [reflexivity|].
  apply (parse_returns_at_weaker_token arith_rule_map 9 25
           (advance_n 2 (stream_of "2*3+4")) (advance_n 3 (stream_of "2*3+4"))
           (mkNode (mkToken "number" (VInt 3) (Some (0, 0))) [])).
  reflexivity.
Defined.

(** X2.  When every handler consumes, a call of [parse] that returns
    has consumed at least one token: the stream it leaves has strictly
    fewer tokens left than the stream it was given. *)
Theorem parse_consumes_a_token
    (rule_map : RuleMap) (fuel : nat) (rbp : Z) (ts ts' : TokenStream) (node : Node) :
  handlers_consume rule_map ->
  (2 * remaining ts + 2 <= fuel)%nat ->
  parse fuel rule_map rbp ts = Some (Return node, ts') ->
  (remaining ts' < remaining ts)%nat.
Proof.
  intros H Hf E.
  pose proof (parse_finishes rule_map H (remaining ts) ts rbp fuel eq_refl Hf) as C.
  rewrite E in C. exact C.
Qed.

Lemma parse_consumes_a_token_witness :
  (remaining (advance_n 3 (stream_of "2*3+4"))
   < remaining (advance_n 2 (stream_of "2*3+4")))%nat.
Proof.
  apply (parse_consumes_a_token arith_rule_map 9 25
           (advance_n 2 (stream_of "2*3+4")) (advance_n 3 (stream_of "2*3+4"))
           (mkNode (mkToken "number" (VInt 3) (Some (0, 0))) [])
           arith_handlers_consume).
  - vm_compute. lia.
  - reflexivity.
Defined.

(** ** Associativity *)

(** X3.  How associativity comes out of the two binding powers.  Inside
    the right operand of an operator registered by [register_left], the
    minimum binding power is the operator's right binding power.  When
    the loop meets there an operator of the same decorator, a
    left-associative registration stops the loop, so the operand ends
    before it, and a right-associative one calls the handler, so the
    operator is taken into the operand. *)
Theorem associativity_by_binding_power
    (bp : Z) (token_types : list string) (is_left_right_assoc : bool) (f : Led)
    (rule_map : RuleMap) (fuel : nat) (node : Node) (ts : TokenStream) :
  type (current ts) ∈ token_types ->
  parse_loop (S fuel)
    (register_left bp token_types is_left_right_assoc f rule_map)
    (if is_left_right_assoc then bp - 1 else bp) node ts
  = if is_left_right_assoc then
      match f (parse fuel (register_left bp token_types true f rule_map))
              (bp - 1) node ts with
      | None => None
      | Some (Raise e, ts') => Some (Raise e, ts')
      | Some (Return node', ts') =>
          parse_loop fuel (register_left bp token_types true f rule_map)
            (bp - 1) node' ts'
      end
    else Some (Return node, ts).
Proof.
  intros H.
  pose proof (left_register_left_listed bp token_types is_left_right_assoc f
                rule_map _ H) as E.
  destruct is_left_right_assoc.
  - apply (parse_loop_continue _ _ _ _ _ _ _ _ E). lia.
  - apply (parse_loop_stop _ _ _ _ _ _ _ _ E). lia.
Qed.

(** A table of numbers and one operator, for the two cases. *)
Definition numbers_only : RuleMap :=
  register_null (-1) ["number"; "eof"] null_constant RuleMap_new.

Lemma associativity_by_binding_power_witness :
  let two := mkNode (mkToken "number" (VInt 2) (Some (0, 0))) [] in
  let three := mkNode (mkToken "number" (VInt 3) (Some (0, 0))) [] in
  parse_loop 5 (register_left 23 ["+"; "-"] false left_binary_op numbers_only) 23
    two (stream_of "+ 3")
  = Some (Return two, stream_of "+ 3")
  /\ parse_loop 5 (register_left 29 ["**"] true left_binary_op numbers_only) 28
       two (stream_of "** 3")
     = Some (Return (mkNode (mkToken "**" (VStr "**") (Some (0, 0))) [two; three]),
             advance_n 2 (stream_of "** 3")).
Proof.
  intros two three. split.
  - apply (associativity_by_binding_power 23 ["+"; "-"] false left_binary_op
             numbers_only 4 two (stream_of "+ 3")).
    apply list_elem_of_here.
  - etransitivity.
    + apply (associativity_by_binding_power 29 ["**"] true left_binary_op
               numbers_only 4 two (stream_of "** 3")).
      apply list_elem_of_here.
    + reflexivity.
Defined.

(** ** Tokens the table does not know *)

(** X4.  A token whose type no decorator of the grammar lists has no
    entry in either table.  In prefix position (and unless it is the end
    of the input) [parse] raises the error of an unexpected token, and
    so does the loop in infix position; the message shows the token, and
    the stream is left as it was. *)
Theorem unregistered_token_unexpected
    (rs : list registration) (fuel : nat) (rbp : Z) (node : Node) (ts : TokenStream) :
  type (current ts) ∉ null_types rs ->
  type (current ts) ∉ left_types rs ->
  (type (current ts) <> "eof" ->
   parse (S fuel) (build rs) rbp ts
   = Some (Raise (ParseError ("Unexpected token " +:+ Token_repr (current ts))), ts))
  /\ parse_loop (S fuel) (build rs) rbp node ts
     = Some (Raise (ParseError ("Unexpected token " +:+ Token_repr (current ts))), ts).
Proof.
  intros Hn Hl.
  destruct (build_null_unlisted rs _ Hn) as [[_ En]|[? _]]; [|contradiction].
  destruct (build_left_unlisted rs _ Hl) as [[_ El]|[? _]]; [|contradiction].
  split.
  - intros Hne. apply parse_no_prefix_rule; assumption.
  - apply parse_loop_no_infix_rule; assumption.
Qed.

Lemma unregistered_token_unexpected_witness :
  parse 1 arith_rule_map 0 (stream_of "]")
  = Some (Raise (ParseError "Unexpected token <Token ] ]>"), stream_of "]")
  /\ parse_loop 1 arith_rule_map 0 (mkNode ERROR_TOKEN []) (stream_of "]")
     = Some (Raise (ParseError "Unexpected token <Token ] ]>"), stream_of "]").
Proof.
  assert (Hn : type (current (stream_of "]")) ∉ null_types arith_grammar)
    by (apply not_elem_of_by_eval; vm_compute; reflexivity).
  assert (Hl : type (current (stream_of "]")) ∉ left_types arith_grammar)
    by (apply not_elem_of_by_eval; vm_compute; reflexivity).
  destruct (unregistered_token_unexpected arith_grammar 0 0 (mkNode ERROR_TOKEN [])
              (stream_of "]") Hn Hl) as [Hp Hloop].
  split; [apply Hp; discriminate|exact Hloop].
Defined.

(** ** Texts without tokens *)

(** A character that yields no token: white space, or a character no
    alternative matches. *)
Definition blank (c : ascii) : bool := is_space c || unmatched c.

Lemma span_rest_head (p : ascii -> bool) (text : string) (d : ascii) (b : string) :
  snd (span p text) = String d b -> p d = false.
Proof.
  induction text as [|c text IH]; simpl; [discriminate|].
  destruct (p c) eqn:E.
  - destruct (span p text). simpl in *. exact IH.
  - simpl. intros [= <- _]. exact E.
Qed.

Lemma span_rest_all (p q : ascii -> bool) (text : string) :
  all_chars q text = true -> all_chars q (snd (span p text)) = true.
Proof.
  induction text as [|c text IH]; simpl; [trivial|].
  intros H. apply andb_prop in H as [Hc H].
  destruct (p c).
  - destruct (span p text). simpl in *. apply IH, H.
  - simpl. rewrite Hc, H. reflexivity.
Qed.

Lemma match_at_blank (text : string) :
  all_chars blank text = true -> match_at text = None.
Proof.
  intros H. unfold match_at.
  pose proof (span_rest_all is_space blank text H) as Hb.
  destruct (snd (span is_space text)) as [|d body] eqn:E; [reflexivity|].
  apply span_rest_head in E. simpl in Hb. apply andb_prop in Hb as [Hd _].
  unfold blank in Hd. rewrite E in Hd. simpl in Hd.
  destruct (unmatched_classes d Hd) as (_ & H1 & H2 & H3 & H4).
  rewrite H1, H2, H3, H4. reflexivity.
Qed.

Lemma scan_blank (fuel : nat) (text : string) :
  all_chars blank text = true -> scan fuel text = [].
Proof.
  revert text. induction fuel as [|fuel IH]; intros text H; [reflexivity|].
  rewrite scan_unfold, (match_at_blank text H).
  destruct text as [|c text]; [reflexivity|].
  simpl in H. apply andb_prop in H as [_ H]. apply IH, H.
Qed.

(** X5.  A text made only of white space and of characters that no
    alternative of [TOKEN_RE] matches, the empty text included, has no
    tokens: the constructor of the stream leaves the sentinel current,
    and [parse] raises the error of the end of the input, whatever the
    table and the minimum binding power. *)
Theorem blank_text_is_end_of_input (text : string) :
  all_chars blank text = true ->
  tokenize text = []
  /\ current (stream_of text) = EOF_TOKEN
  /\ forall rule_map fuel rbp,
       parse (S fuel) rule_map rbp (stream_of text)
       = Some (Raise (ParseError "Unexpected end of input"), stream_of text).
Proof.
  intros H.
  assert (T : tokenize text = []).
  { unfold tokenize, findall. rewrite (scan_blank _ _ H). reflexivity. }
  assert (C : current (stream_of text) = EOF_TOKEN).
  { destruct (stream_of_cases text) as [[-> _]|(pending & typ & v & _ & _ & E)].
    - reflexivity.
    - rewrite T in E. discriminate E. }
  split; [exact T|]. split; [exact C|].
  intros rule_map fuel rbp. apply parse_eof. rewrite C. reflexivity.
Qed.

Lemma blank_text_is_end_of_input_witness :
  tokenize " { } " = []
  /\ current (stream_of " { } ") = EOF_TOKEN
  /\ forall rule_map fuel rbp,
       parse (S fuel) rule_map rbp (stream_of " { } ")
       = Some (Raise (ParseError "Unexpected end of input"), stream_of " { } ").
Proof. apply (blank_text_is_end_of_input " { } "). reflexivity. Defined.

(** ** White space only separates *)

Lemma match_at_space_cons (c : ascii) (text : string) :
  is_space c = true -> match_at (String c text) = match_at text.
Proof.
  intros H. unfold match_at. rewrite (span_cons_true _ _ _ H). reflexivity.
Qed.

Lemma findall_space_cons (c : ascii) (text : string) :
  is_space c = true -> findall (String c text) = findall text.
Proof.
  intros H. pose proof (match_at_space_cons c text H) as E.
  destruct (match_at text) as [[it rest]|] eqn:Et.
  - rewrite (findall_match _ _ _ E), (findall_match _ _ _ Et). reflexivity.
  - apply findall_skip, E.
Qed.

(** A run that has stopped inside [a] stops at the same place when the
    text goes on. *)
Lemma span_app_stopped (p : ascii -> bool) (a x : string) (d : ascii) (b : string) :
  snd (span p a) = String d b ->
  span p (a +:+ x) = (fst (span p a), String d b +:+ x).
Proof.
  induction a as [|c a IH]; [discriminate|].
  rewrite string_app_cons. simpl. destruct (p c).
  - destruct (span p a) as [run rest]. simpl. intros ->.
    rewrite (IH eq_refl). reflexivity.
  - simpl. intros [= <- <-]. rewrite string_app_cons. reflexivity.
Qed.

Lemma match_at_app_space (pre post : string) (c : ascii) (it : item) (rest : string) :
  is_space c = true ->
  match_at pre = Some (it, rest) ->
  match_at (pre +:+ String c post) = Some (it, rest +:+ String c post).
Proof.
  intros Hc. destruct (space_not_token c Hc) as (Hd & Hw & Ho & _).
  unfold match_at.
  destruct (snd (span is_space pre)) as [|d body] eqn:E; [discriminate|].
  rewrite (span_app_stopped _ _ (String c post) _ _ E). simpl snd.
  rewrite string_app_cons.
  destruct (is_digit d); [|destruct (is_word d); [|destruct (is_op d)]].
  - rewrite <- string_app_cons, (span_app_stop _ _ c post Hd).
    destruct (span is_digit (String d body)). intros [= <- <-]. reflexivity.
  - rewrite <- string_app_cons, (span_app_stop _ _ c post Hw).
    destruct (span is_word (String d body)). intros [= <- <-]. reflexivity.
  - rewrite <- string_app_cons, (span_app_stop _ _ c post Ho).
    destruct (span is_op (String d body)). intros [= <- <-]. reflexivity.
  - destruct (is_bracket d); [|discriminate]. intros [= <- <-]. reflexivity.
Qed.

(** The attempt at a character that is not white space. *)
Lemma match_at_head (d : ascii) (text : string) :
  is_space d = false ->
  match_at (String d text)
  = if is_digit d then
      let (run, rest) := span is_digit (String d text) in
      Some ((run, EmptyString, EmptyString, EmptyString), rest)
    else if is_word d then
      let (run, rest) := span is_word (String d text) in
      Some ((EmptyString, run, EmptyString, EmptyString), rest)
    else if is_op d then
      let (run, rest) := span is_op (String d text) in
      Some ((EmptyString, EmptyString, run, EmptyString), rest)
    else if is_bracket d then
      Some ((EmptyString, EmptyString, EmptyString, String d EmptyString), text)
    else None.
Proof.
  intros Hd. unfold match_at. rewrite (span_cons_false _ _ _ Hd). reflexivity.
Qed.

(** Where no match starts at a character that is not white space, none
    starts there whatever the text after it. *)
Lemma match_at_none_head (d : ascii) (text text' : string) :
  is_space d = false ->
  match_at (String d text) = None -> match_at (String d text') = None.
Proof.
  intros Hd. rewrite !(match_at_head _ _ Hd).
  destruct (is_digit d);
    [destruct (span is_digit (String d text)); intros H; discriminate H|].
  destruct (is_word d);
    [destruct (span is_word (String d text)); intros H; discriminate H|].
  destruct (is_op d);
    [destruct (span is_op (String d text)); intros H; discriminate H|].
  destruct (is_bracket d); [intros H; discriminate H|reflexivity].
Qed.

Lemma findall_space (pre post : string) (c : ascii) :
  is_space c = true ->
  findall (pre +:+ String c post) = findall pre ++ findall post.
Proof.
  intros H.
  assert (K : forall n pre, (String.length pre < n)%nat ->
              findall (pre +:+ String c post) = findall pre ++ findall post).
  { clear pre. induction n as [|n IH]; intros pre Hn; [lia|].
    destruct (match_at pre) as [[it rest]|] eqn:Ep.
    - rewrite (findall_match _ _ _ (match_at_app_space _ post _ _ _ H Ep)),
        (findall_match _ _ _ Ep).
      apply match_at_spec in Ep as [_ L]. rewrite IH by lia. reflexivity.
    - destruct pre as [|d pre].
      + rewrite string_app_nil_l. apply findall_space_cons, H.
      + rewrite string_app_cons, (findall_skip _ _ Ep).
        simpl in Hn. destruct (is_space d) eqn:Hd.
        * rewrite (findall_space_cons _ _ Hd). apply IH. lia.
        * rewrite (findall_skip _ _ (match_at_none_head _ _ _ Hd Ep)).
          apply IH. lia. }
  apply (K (S (String.length pre))). lia.
Qed.

(** X6.  White space only separates tokens: the tokens of a text with a
    white-space character in it are those of the part before the
    character followed by those of the part after it.  So white space
    at either end of a text, and more white space where there is some,
    change nothing. *)
Theorem white_space_separates (pre post : string) (c : ascii) :
  is_space c = true ->
  tokenize (pre +:+ String c post) = tokenize pre ++ tokenize post.
Proof.
  intros H. unfold tokenize. rewrite (findall_space _ _ _ H). apply omap_app.
Qed.

Lemma white_space_separates_witness :
  tokenize ("x" +:+ String " " "= 2") = tokenize "x" ++ tokenize "= 2"
  /\ tokenize ("1 +" +:+ String "010" "2") = tokenize "1 +" ++ tokenize "2".
Proof.
  split.
  - apply (white_space_separates "x" "= 2" " "). reflexivity.
  - apply (white_space_separates "1 +" "2" "010"). reflexivity.
Defined.

(** ** Names *)

(** X7.  After the white space, the longest run of word characters that
    does not start with a digit is one token of type [name] whose value
    is the run; digits inside the run belong to the name.  A run of
    digits directly followed by such a run is two tokens, the number
    and then the name. *)
Theorem tokenize_name (ws run rest : string) (c : ascii) :
  all_chars is_space ws = true ->
  is_digit c = false ->
  all_chars is_word (String c run) = true ->
  ends_run is_word rest = true ->
  tokenize (ws +:+ String c run +:+ rest)
  = mkToken "name" (VStr (String c run)) (Some (0, 0)) :: tokenize rest
  /\ forall digits,
       nonempty digits = true -> all_chars is_digit digits = true ->
       tokenize (ws +:+ digits +:+ String c run +:+ rest)
       = mkToken "number" (VInt (int digits)) (Some (0, 0))
           :: mkToken "name" (VStr (String c run)) (Some (0, 0))
           :: tokenize rest.
Proof.
  intros Hws Hd Hr He.
  assert (N : forall ws', all_chars is_space ws' = true ->
              tokenize (ws' +:+ String c run +:+ rest)
              = mkToken "name" (VStr (String c run)) (Some (0, 0)) :: tokenize rest).
  { intros ws' Hws'.
    apply (tokenize_match _ _ _ _ _ (match_at_name ws' rest Hws' run c Hd Hr He)).
    reflexivity. }
  split; [apply N, Hws|].
  intros digits Hn Hds.
  assert (Hend : ends_run is_digit (String c run +:+ rest) = true).
  { rewrite string_app_cons. simpl. rewrite Hd. reflexivity. }
  rewrite (tokenize_match _ _ _ "number" (VInt (int digits))
             (match_at_number ws _ Hws digits Hn Hds Hend)).
  - f_equal. apply (N EmptyString). reflexivity.
  - destruct digits; [discriminate|reflexivity].
Qed.

Lemma tokenize_name_witness :
  tokenize (" " +:+ "x_1" +:+ "+2")
  = mkToken "name" (VStr "x_1") (Some (0, 0)) :: tokenize "+2"
  /\ tokenize (" " +:+ "12" +:+ "x_1" +:+ "+2")
     = mkToken "number" (VInt 12) (Some (0, 0))
         :: mkToken "name" (VStr "x_1") (Some (0, 0)) :: tokenize "+2".
Proof.
  destruct (tokenize_name " " "_1" "+2" "x") as [H1 H2]; try reflexivity.
  split; [exact H1|]. apply (H2 "12"); reflexivity.
Defined.

(** ** Numerals *)

Lemma pretty_N_char_code (d : N) :
  (d < 10)%N ->
  is_digit (pretty_N_char d) = true
  /\ Z.of_nat (code (pretty_N_char d)) - 48 = Z.of_N d.
Proof.
  intros H.
  assert (K : d = 0%N \/ d = 1%N \/ d = 2%N \/ d = 3%N \/ d = 4%N \/ d = 5%N
              \/ d = 6%N \/ d = 7%N \/ d = 8%N \/ d = 9%N) by lia.
  repeat (destruct K as [->|K]; [split; reflexivity|]). subst d. split; reflexivity.
Qed.

(** The digits that [str] writes in front of [tail] are digits, and
    read back they continue the number. *)
Lemma pretty_N_go_digits (x : N) :
  forall tail,
    (all_chars is_digit tail = true -> all_chars is_digit (pretty_N_go x tail) = true)
    /\ ((0 < x)%N -> nonempty (pretty_N_go x tail) = true)
    /\ int_digits 0 (pretty_N_go x tail) = int_digits (Z.of_N x) tail.
Proof.
  induction (N.lt_wf_0 x) as [x _ IH]. intros tail.
  destruct (N.eq_dec x 0%N) as [->|Hx].
  - rewrite pretty_N_go_0. repeat split; [trivial|lia].
  - assert (Hpos : (0 < x)%N) by lia.
    rewrite (pretty_N_go_step x tail Hpos).
    assert (Hlt : (x `div` 10 < x)%N) by (apply N.div_lt; lia).
    assert (Hm : (x `mod` 10 < 10)%N) by (apply N.mod_lt; lia).
    destruct (pretty_N_char_code _ Hm) as [Hd Hv].
    destruct (IH _ Hlt (String (pretty_N_char (x `mod` 10)) tail)) as (A & B & C).
    split; [|split].
    + intros Ht. apply A. simpl. rewrite Hd, Ht. reflexivity.
    + intros _. destruct (N.eq_dec (x `div` 10)%N 0%N) as [E|E].
      * rewrite E, pretty_N_go_0. reflexivity.
      * apply B, N.neq_0_lt_0, E.
    + rewrite C. simpl. f_equal. rewrite Hv.
      change 10 with (Z.of_N 10).
      rewrite <- N2Z.inj_mul, <- N2Z.inj_add. f_equal.
      symmetry. apply N.div_mod. lia.
Qed.

Lemma pretty_N_numeral (n : N) :
  nonempty (pretty n) = true
  /\ all_chars is_digit (pretty n) = true
  /\ int (pretty n) = Z.of_N n.
Proof.
  unfold pretty, pretty_N. destruct (decide (n = 0%N)) as [->|Hn].
  - repeat split.
  - destruct (pretty_N_go_digits n EmptyString) as (A & B & C).
    split; [apply B; lia|]. split; [apply A; reflexivity|]. exact C.
Qed.

Lemma tokenize_numeral (n : Z) :
  0 <= n -> tokenize (pretty n) = [mkToken "number" (VInt n) (Some (0, 0))].
Proof.
  intros Hn.
  assert (E : pretty n = pretty (Z.to_N n)).
  { unfold pretty at 1, pretty_Z. destruct n as [|p|p]; [reflexivity|reflexivity|lia]. }
  destruct (pretty_N_numeral (Z.to_N n)) as (A & B & C).
  rewrite E.
  pose proof (match_at_number EmptyString EmptyString eq_refl
                (pretty (Z.to_N n)) A B eq_refl) as M.
  rewrite string_app_nil_l, string_app_nil_r in M.
  rewrite (tokenize_match _ _ _ "number" (VInt n) M).
  - reflexivity.
  - unfold classify. rewrite A, C, Z2N.id by exact Hn. reflexivity.
Qed.

(** X8.  The numeral of a number comes back as that number: for [n] at
    least 0, the text [str(n)] is one token of type [number] with value
    [n], and the leaf made of that token prints as the text again. *)
Theorem numeral_round_trip (n : Z) :
  0 <= n ->
  tokenize (pretty n) = [mkToken "number" (VInt n) (Some (0, 0))]
  /\ Node_repr (mkNode (mkToken "number" (VInt n) (Some (0, 0))) []) = pretty n.
Proof. intros Hn. split; [apply tokenize_numeral, Hn|reflexivity]. Qed.

Lemma numeral_round_trip_witness :
  tokenize (pretty 2026) = [mkToken "number" (VInt 2026) (Some (0, 0))]
  /\ Node_repr (mkNode (mkToken "number" (VInt 2026) (Some (0, 0))) []) = pretty 2026
  /\ pretty 2026 = "2026".
Proof.
  destruct (numeral_round_trip 2026) as [H1 H2]; [lia|].
  split; [exact H1|]. split; [exact H2|reflexivity].
Defined.

(** ** The tokens a text can give *)

(** The four kinds of token the generator makes: a number with a value
    of 0 or more; a name, a run of word characters that does not start
    with a digit; an operator, a run of operator symbols that is its own
    type and value; a bracket.  All carry the location (0, 0). *)
Definition token_shape (t : Token) : Prop :=
  loc t = Some (0, 0)
  /\ ((type t = "number" /\ exists n, val t = VInt n /\ 0 <= n)
      \/ (type t = "name"
          /\ exists c w, val t = VStr (String c w) /\ is_digit c = false
                         /\ all_chars is_word (String c w) = true)
      \/ (nonempty (type t) = true /\ all_chars is_op (type t) = true
          /\ val t = VStr (type t))
      \/ (exists c, is_bracket c = true /\ type t = String c EmptyString
                    /\ val t = VStr (type t))).

Lemma span_run_all (p : ascii -> bool) (text : string) :
  all_chars p (fst (span p text)) = true.
Proof.
  induction text as [|c text IH]; simpl; [reflexivity|].
  destruct (p c) eqn:E; [|reflexivity].
  destruct (span p text). simpl in *. rewrite E, IH. reflexivity.
Qed.

Lemma int_digits_nonneg (digits : string) :
  forall acc, 0 <= acc -> all_chars is_digit digits = true -> 0 <= int_digits acc digits.
Proof.
  induction digits as [|c digits IH]; intros acc Ha H; simpl; [exact Ha|].
  simpl in H. apply andb_prop in H as [Hc H].
  apply IH; [|exact H].
  unfold is_digit, between in Hc. apply andb_prop in Hc as [Hlo _].
  apply Nat.leb_le in Hlo. lia.
Qed.

Lemma match_at_shape (text : string) (it : item) (rest : string) :
  match_at text = Some (it, rest) ->
  exists typ v, classify it = Some (typ, v) /\ token_shape (mkToken typ v (Some (0, 0))).
Proof.
  unfold match_at.
  destruct (snd (span is_space text)) as [|c body]; [discriminate|].
  destruct (is_digit c) eqn:Ed; [|destruct (is_word c) eqn:Ew;
    [|destruct (is_op c) eqn:Eo; [|destruct (is_bracket c) eqn:Ek; [|discriminate]]]].
  - pose proof (span_run_all is_digit (String c body)) as A.
    rewrite (span_cons_true _ _ _ Ed) in *. intros [= <- _].
    eexists _, _. split; [reflexivity|]. split; [reflexivity|]. left.
    split; [reflexivity|]. eexists. split; [reflexivity|].
    apply int_digits_nonneg; [lia|exact A].
  - pose proof (span_run_all is_word (String c body)) as A.
    rewrite (span_cons_true _ _ _ Ew) in *. intros [= <- _].
    eexists _, _. split; [reflexivity|]. split; [reflexivity|]. right; left.
    split; [reflexivity|]. eexists _, _. split; [reflexivity|]. split; [exact Ed|exact A].
  - pose proof (span_run_all is_op (String c body)) as A.
    rewrite (span_cons_true _ _ _ Eo) in *. intros [= <- _].
    eexists _, _. split; [reflexivity|]. split; [reflexivity|]. right; right; left.
    split; [reflexivity|]. split; [exact A|reflexivity].
  - intros [= <- _].
    eexists _, _. split; [reflexivity|]. split; [reflexivity|]. right; right; right.
    exists c. split; [exact Ek|]. split; reflexivity.
Qed.

Lemma scan_shape (fuel : nat) (text : string) :
  Forall token_shape (omap item_token (scan fuel text)).
Proof.
  revert text. induction fuel as [|fuel IH]; intros text; [constructor|].
  rewrite scan_unfold.
  destruct (match_at text) as [[it rest]|] eqn:E.
  - destruct (match_at_shape _ _ _ E) as (typ & v & C & S).
    rewrite (omap_cons_Some _ _ _ _ (item_token_classify _ _ _ C)).
    constructor; [exact S|apply IH].
  - destruct text; [constructor|apply IH].
Qed.

Lemma token_shape_not_eof (t : Token) :
  token_shape t ->
  type t <> "eof" /\ type t <> "<ERROR>" /\ t <> EOF_TOKEN /\ t <> ERROR_TOKEN.
Proof.
  intros [L S].
  assert (T : type t <> "eof" /\ type t <> "<ERROR>").
  { destruct S as [[E _]|[[E _]|[(_ & A & _)|(c & B & E & _)]]].
    - rewrite E. split; discriminate.
    - rewrite E. split; discriminate.
    - split; intros E; rewrite E in A; discriminate A.
    - rewrite E. split; discriminate. }
  destruct T as [T1 T2]. repeat split; try assumption.
  - intros ->. discriminate L.
  - intros ->. discriminate L.
Qed.

(** X9.  Every token made of a text is of one of four kinds: a number
    with a value of 0 or more, a name made of word characters of which
    the first is no digit, a run of
    operator symbols that is its own type and value, or a single
    bracket; each carries the location (0, 0).  So no text gives a token
    of type [eof]: the text [eof] is a name, and the sentinel and the
    placeholder of a fresh stream are no tokens of any text. *)
Theorem tokens_have_four_shapes (text : string) :
  Forall (fun t =>
            token_shape t
            /\ type t <> "eof" /\ type t <> "<ERROR>"
            /\ t <> EOF_TOKEN /\ t <> ERROR_TOKEN)
         (tokenize text).
Proof.
  unfold tokenize, findall.
  eapply Forall_impl; [apply scan_shape|].
  intros t S. split; [exact S|apply token_shape_not_eof, S].
Qed.

Lemma tokens_have_four_shapes_witness :
  tokenize "eof" = [mkToken "name" (VStr "eof") (Some (0, 0))]
  /\ Forall (fun t => type t <> "eof") (tokenize "eof + <ERROR>").
Proof.
  split; [reflexivity|].
  eapply Forall_impl; [apply (tokens_have_four_shapes "eof + <ERROR>")|].
  intros t H. apply H.
Defined.

(** ** What a stream shows *)

Lemma reachable_position (ts : TokenStream) :
  reachable ts -> exists text k, ts = advance_n k (stream_of text).
Proof.
  induction 1 as [text ts H|ts _ (text & k & ->)].
  - exists text, 0%nat. rewrite TokenStream_new_returns in H.
    injection H as <-. reflexivity.
  - exists text, (S k). rewrite advance_n_S. reflexivity.
Qed.

Lemma current_advance_n (text : string) (k : nat) :
  current (advance_n k (stream_of text))
  = nth k (tokenize text ++ [EOF_TOKEN]) EOF_TOKEN.
Proof.
  destruct (stream_of_cases text) as [[-> ->]|(pending & typ & v & G & -> & ->)].
  - destruct (advance_n_finished text EOF_TOKEN GenAfterLoop k) as [Hc _];
      [left; reflexivity|].
    rewrite Hc. destruct k as [|[|?]]; reflexivity.
  - apply (advance_n_in_loop text pending G).
Qed.

Lemma reachable_current (ts : TokenStream) :
  reachable ts -> current ts = EOF_TOKEN \/ token_shape (current ts).
Proof.
  intros (text & k & ->)%reachable_position.
  rewrite current_advance_n.
  destruct (Nat.lt_ge_cases k (List.length (tokenize text))) as [Hk|Hk].
  - right. rewrite app_nth1 by exact Hk.
    pose proof (scan_shape (S (String.length text)) text) as F.
    rewrite List.Forall_forall in F. apply F, nth_In, Hk.
  - left. apply (nth_sentinel _ _ (tokens_located _)), Hk.
Qed.

(** X10.  On a stream built by the constructor and advanced any number
    of times, the test [parse] makes for the end of the input, on the
    type of the current token, holds exactly when the current token is
    the sentinel; and the placeholder a stream is created with never
    shows: it is not the current token, and [next] does not return
    it. *)
Theorem end_of_input_test_is_exact (ts : TokenStream) :
  reachable ts ->
  (type (current ts) = "eof" <-> current ts = EOF_TOKEN)
  /\ current ts <> ERROR_TOKEN
  /\ forall t, fst (__next__ ts) = Return t -> t <> ERROR_TOKEN.
Proof.
  intros R.
  assert (C : forall ts, reachable ts ->
              (type (current ts) = "eof" <-> current ts = EOF_TOKEN)
              /\ current ts <> ERROR_TOKEN).
  { clear. intros ts R. destruct (reachable_current ts R) as [E|S].
    - rewrite E. split; [split; reflexivity|discriminate].
    - destruct (token_shape_not_eof _ S) as (T1 & _ & T3 & T4).
      split; [split; intros; contradiction|exact T4]. }
  destruct (C ts R) as [C1 C2]. split; [exact C1|]. split; [exact C2|].
  intros t E.
  pose proof (reachable_inv ts R) as I.
  destruct ts as [text cur g]. unfold stream_inv in I. simpl in *.
  destruct g as [|pending tv| |]; [contradiction| |discriminate E|discriminate E].
  destruct I as [G _].
  assert (N : fst (__next__ (mkTokenStream text cur (GenInLoop pending tv)))
              = Return cur).
  { destruct G as [|it pending [[typ v] Ec] G]; [reflexivity|].
    rewrite (next_in_loop_cons _ _ _ _ _ _ _ Ec). reflexivity. }
  rewrite N in E. injection E as <-. exact C2.
Qed.

Lemma end_of_input_test_is_exact_witness :
  (type (current (stream_of "eof")) = "eof" <-> current (stream_of "eof") = EOF_TOKEN)
  /\ type (current (stream_of "eof")) = "name"
  /\ current (advance_n 1 (stream_of "eof")) = EOF_TOKEN.
Proof.
  assert (R : reachable (stream_of "eof"))
    by (apply (reachable_new "eof"); reflexivity).
  split; [apply (end_of_input_test_is_exact _ R)|]. split; reflexivity.
Defined.

(** ** [eat] *)

(** The two situations of a stream a program can hold: a token of the
    text is current and [next] returns it, leaving one token fewer; or
    the sentinel is current and [next] raises [StopIteration], the
    sentinel staying current. *)
Lemma stream_inv_cases (ts : TokenStream) :
  stream_inv ts ->
  (current ts <> EOF_TOKEN
   /\ fst (__next__ ts) = Return (current ts)
   /\ S (remaining (snd (__next__ ts))) = remaining ts)
  \/ (current ts = EOF_TOKEN
      /\ fst (__next__ ts) = Raise StopIteration
      /\ current (snd (__next__ ts)) = EOF_TOKEN).
Proof.
  destruct ts as [text cur g]. unfold stream_inv. simpl.
  destruct g as [|pending tv| |]; [contradiction| | |].
  - intros [G L]. left. split; [intros ->; discriminate L|].
    destruct G as [|it pending [[typ v] E] G]; [split; reflexivity|].
    rewrite (next_in_loop_cons _ _ _ _ _ _ _ E). split; reflexivity.
  - intros ->. right. repeat split.
  - intros ->. right. repeat split.
Qed.

(** X11.  [eat] on a stream built by the constructor.  When a type is
    asked for and the current token has another type, it raises the
    error that names both, and the stream is untouched.  Otherwise, the
    type asked for being empty or the type of the current token, it
    moves on by one token; and if the current token is the sentinel,
    which the types [eof] and the empty one accept, the exception is the
    [StopIteration] of the exhausted generator, not a [ParseError]. *)
Theorem eat_checks_then_advances (token_type : string) (ts : TokenStream) :
  reachable ts ->
  (nonempty token_type = true -> type (current ts) <> token_type ->
   eat token_type ts
   = Some (Raise (ParseError ("expected " +:+ token_type +:+ ", got "
                              +:+ Token_repr (current ts))), ts))
  /\ (token_type = EmptyString \/ type (current ts) = token_type ->
      current ts <> EOF_TOKEN ->
      eat token_type ts = Some (Return tt, snd (__next__ ts))
      /\ S (remaining (snd (__next__ ts))) = remaining ts)
  /\ (token_type = EmptyString \/ token_type = "eof" ->
      current ts = EOF_TOKEN ->
      eat token_type ts = Some (Raise StopIteration, snd (__next__ ts))
      /\ current (snd (__next__ ts)) = EOF_TOKEN).
Proof.
  intros R. apply reachable_inv in R.
  assert (A : token_type = EmptyString \/ type (current ts) = token_type ->
              eat token_type ts
              = match __next__ ts with
                | (Return _, ts') => Some (Return tt, ts')
                | (Raise e, ts') => Some (Raise e, ts')
                end).
  { intros H. unfold eat.
    assert (B : nonempty token_type
                && negb (String.eqb (type (current ts)) token_type) = false).
    { destruct H as [->|<-]; [reflexivity|].
      rewrite String.eqb_refl. apply andb_false_r. }
    rewrite B. unfold bind, advance, ret.
    destruct (__next__ ts) as [[t|e] ts']; reflexivity. }
  split; [|split].
  - intros Hn Hne. unfold eat. apply String.eqb_neq in Hne.
    rewrite Hn, Hne. reflexivity.
  - intros H Hc. rewrite (A H).
    destruct (stream_inv_cases ts R) as [(_ & N & L)|(E & _)]; [|contradiction].
    rewrite (surjective_pairing (__next__ ts)), N. split; [reflexivity|exact L].
  - intros H Hc.
    assert (H' : token_type = EmptyString \/ type (current ts) = token_type).
    { destruct H as [->| ->]; [left; reflexivity|right; rewrite Hc; reflexivity]. }
    rewrite (A H').
    destruct (stream_inv_cases ts R) as [(Hne & _)|(_ & N & C)]; [contradiction|].
    rewrite (surjective_pairing (__next__ ts)), N. split; [reflexivity|exact C].
Qed.

Lemma eat_checks_then_advances_witness :
  eat ")" (stream_of "+ 1")
  = Some (Raise (ParseError "expected ), got <Token + +>"), stream_of "+ 1")
  /\ eat "+" (stream_of "+ 1") = Some (Return tt, advance_n 1 (stream_of "+ 1"))
  /\ eat ":" (stream_of EmptyString)
     = Some (Raise (ParseError "expected :, got <Token eof eof>"), stream_of EmptyString)
  /\ eat "eof" (stream_of EmptyString)
     = Some (Raise StopIteration, advance_n 1 (stream_of EmptyString)).
Proof.
  assert (R : reachable (stream_of "+ 1"))
    by (apply (reachable_new "+ 1"); reflexivity).
  assert (R0 : reachable (stream_of EmptyString))
    by (apply (reachable_new EmptyString); reflexivity).
  split; [|split; [|split]].
  - apply (proj1 (eat_checks_then_advances ")" _ R)); [reflexivity|discriminate].
  - apply (proj1 (proj2 (eat_checks_then_advances "+" _ R)));
      [right; reflexivity|discriminate].
  - apply (proj1 (eat_checks_then_advances ":" _ R0)); [reflexivity|discriminate].
  - apply (proj2 (proj2 (eat_checks_then_advances "eof" _ R0)));
      [right; reflexivity|reflexivity].
Defined.

(** ** More on the decorators *)

(** X12.  [register_null(bp, token_types)] gives every listed type the
    prefix entry with the decorated handler and [bp], replacing whatever
    prefix entry the type had, a placeholder or a handler registered
    before; and in a grammar the last decorator that lists a type in
    prefix position is the one whose handler [parse] finds. *)
Theorem register_null_installs
    (bp : Z) (token_types : list string) (f : Nud) (token_type : string) :
  token_type ∈ token_types ->
  (forall rule_map,
      null (register_null bp token_types f rule_map) !! token_type = Some (f, bp))
  /\ (forall rs,
        null (build (rs ++ [RegNull bp token_types f])) !! token_type = Some (f, bp)).
Proof.
  intros H. split.
  - intros rule_map. apply null_register_null_listed, H.
  - intros rs. rewrite build_snoc. simpl. apply null_register_null_listed, H.
Qed.

Lemma register_null_installs_witness :
  null (register_null 27 ["+"; "-"] null_prefix_op
          (register_left 23 ["+"; "-"] false left_binary_op RuleMap_new)) !! "-"
  = Some (null_prefix_op, 27)
  /\ null (build (arith_grammar ++ [RegNull 5 ["number"] null_paren])) !! "number"
     = Some (null_paren, 5).
Proof.
  split.
  - apply (proj1 (register_null_installs 27 ["+"; "-"] null_prefix_op "-"
                    ltac:(apply list_elem_of_further, list_elem_of_here))).
  - apply (proj2 (register_null_installs 5 ["number"] null_paren "number"
                    ltac:(apply list_elem_of_here))).
Defined.

(** X13.  A type registered in both positions has both handlers, in
    whichever order the two decorators come: neither decorator puts a
    placeholder over the other's handler.  This is how one token type
    is a prefix operator and an infix or postfix operator at once. *)
Theorem registered_in_both_positions
    (bp_null : Z) (null_tys : list string) (f : Nud)
    (bp_left : Z) (left_tys : list string) (assoc : bool) (g : Led)
    (rule_map : RuleMap) (ty : string) :
  ty ∈ null_tys -> ty ∈ left_tys ->
  let null_then_left :=
    register_left bp_left left_tys assoc g (register_null bp_null null_tys f rule_map) in
  let left_then_null :=
    register_null bp_null null_tys f (register_left bp_left left_tys assoc g rule_map) in
  null null_then_left !! ty = Some (f, bp_null)
  /\ left null_then_left !! ty = Some (g, bp_left, if assoc then bp_left - 1 else bp_left)
  /\ null left_then_null !! ty = Some (f, bp_null)
  /\ left left_then_null !! ty = Some (g, bp_left, if assoc then bp_left - 1 else bp_left).
Proof.
  intros Hn Hl. simpl. repeat split.
  - apply null_register_left_keep, null_register_null_listed, Hn.
  - apply left_register_left_listed, Hl.
  - apply null_register_null_listed, Hn.
  - apply left_register_null_keep, left_register_left_listed, Hl.
Qed.

Lemma registered_in_both_positions_witness :
  null arith_rule_map !! "-" = Some (null_prefix_op, 27)
  /\ left (register_null 27 ["+"; "-"] null_prefix_op
             (register_left 23 ["+"; "-"] false left_binary_op RuleMap_new)) !! "-"
     = Some (left_binary_op, 23, 23).
Proof.
  split; [reflexivity|].
  apply (registered_in_both_positions 27 ["+"; "-"] null_prefix_op
           23 ["+"; "-"] false left_binary_op RuleMap_new "-");
    apply list_elem_of_further, list_elem_of_here.
Defined.

(** X14.  A decorator touches only the types it lists: for any other
    type both tables hold after [register_null] and after
    [register_left] what they held before. *)
Theorem decorators_touch_listed_types_only
    (bp : Z) (token_types : list string) (assoc : bool) (f : Nud) (g : Led)
    (rule_map : RuleMap) (ty : string) :
  ty ∉ token_types ->
  null (register_null bp token_types f rule_map) !! ty = null rule_map !! ty
  /\ left (register_null bp token_types f rule_map) !! ty = left rule_map !! ty
  /\ null (register_left bp token_types assoc g rule_map) !! ty = null rule_map !! ty
  /\ left (register_left bp token_types assoc g rule_map) !! ty = left rule_map !! ty.
Proof.
  intros H. repeat split.
  - apply null_register_null_other, H.
  - apply left_register_null_other, H.
  - apply null_register_left_other, H.
  - apply left_register_left_other, H.
Qed.

Lemma decorators_touch_listed_types_only_witness :
  left (register_null 0 ["("] null_paren arith_rule_map) !! "*"
  = left arith_rule_map !! "*"
  /\ null (register_left 31 ["++"] false left_binary_op arith_rule_map) !! "-"
     = null arith_rule_map !! "-".
Proof.
  split.
  - apply (decorators_touch_listed_types_only 0 ["("] false null_paren left_binary_op
             arith_rule_map "*").
    apply not_elem_of_by_eval. reflexivity.
  - apply (decorators_touch_listed_types_only 31 ["++"] false null_paren left_binary_op
             arith_rule_map "-").
    apply not_elem_of_by_eval. reflexivity.
Defined.

(** ** Tokens written out and read again *)

(** [str(token.val)], and the values of a list of tokens joined by
    single spaces: [" ".join(str(t.val) for t in tokens)]. *)
Definition token_text (t : Token) : string := str_value (val t).

Fixpoint join_tokens (toks : list Token) : string :=
  match toks with
  | [] => EmptyString
  | [t] => token_text t
  | t :: rest => token_text t +:+ String " " (join_tokens rest)
  end.

Lemma tokenize_token_text (t : Token) :
  token_shape t -> tokenize (token_text t) = [t].
Proof.
  destruct t as [ty v l]. unfold token_shape, token_text. simpl.
  intros [-> [(-> & n & -> & Hn)|[(-> & c & w & -> & Hd & Hw)
                |[(Hne & Hop & ->)|(c & Hc & -> & ->)]]]]; simpl.
  - apply tokenize_numeral, Hn.
  - pose proof (match_at_name EmptyString EmptyString eq_refl w c Hd Hw eq_refl) as M.
    rewrite string_app_nil_l, string_app_nil_r in M.
    apply (tokenize_match _ _ _ _ _ M). reflexivity.
  - pose proof (match_at_operator EmptyString EmptyString eq_refl ty Hne Hop eq_refl)
      as M.
    rewrite string_app_nil_l, string_app_nil_r in M.
    apply (tokenize_match _ _ _ _ _ M). destruct ty; [discriminate|reflexivity].
  - pose proof (match_at_bracket EmptyString EmptyString eq_refl c Hc) as M.
    rewrite string_app_nil_l in M.
    apply (tokenize_match _ _ _ _ _ M). reflexivity.
Qed.

Lemma tokenize_join_tokens (toks : list Token) :
  Forall token_shape toks -> tokenize (join_tokens toks) = toks.
Proof.
  induction 1 as [|t toks Ht Hs IH]; [reflexivity|].
  destruct toks as [|t' toks]; [apply tokenize_token_text, Ht|].
  change (join_tokens (t :: t' :: toks))
    with (token_text t +:+ String " " (join_tokens (t' :: toks))).
  unfold tokenize at 1. rewrite (findall_space _ _ " " eq_refl), omap_app.
  fold (tokenize (token_text t)). fold (tokenize (join_tokens (t' :: toks))).
  rewrite (tokenize_token_text t Ht), IH. reflexivity.
Qed.

(** X15.  Writing the tokens of a text out, each as the [str] of its
    value, with single spaces between them, and tokenizing that again
    gives the same tokens: the layout of the white space, the characters
    no alternative matches and the leading zeros of numbers are all that
    a text has beyond its tokens. *)
Theorem tokenize_written_tokens (text : string) :
  tokenize (join_tokens (tokenize text)) = tokenize text.
Proof.
  apply tokenize_join_tokens. unfold tokenize, findall. apply scan_shape.
Qed.

Lemma tokenize_written_tokens_witness :
  join_tokens (tokenize "x=007 {**(y1") = "x = 7 ** ( y1"
  /\ tokenize "x = 7 ** ( y1" = tokenize "x=007 {**(y1".
Proof.
  split; [reflexivity|].
  exact (tokenize_written_tokens "x=007 {**(y1").
Defined.

(** ** How many tokens *)

Lemma scan_length (fuel : nat) (text : string) :
  (List.length (scan fuel text) <= String.length text)%nat.
Proof.
  revert text. induction fuel as [|fuel IH]; intros text; [simpl; lia|].
  rewrite scan_unfold.
  destruct (match_at text) as [[it rest]|] eqn:E.
  - apply match_at_spec in E as [_ L]. specialize (IH rest). simpl. lia.
  - destruct text as [|c text]; [simpl; lia|]. specialize (IH text). simpl. lia.
Qed.

Lemma omap_good_length (its : list item) :
  Forall good_item its -> List.length (omap item_token its) = List.length its.
Proof.
  induction 1 as [|it its [[typ v] E] _ IH]; [reflexivity|].
  rewrite (omap_cons_Some _ _ _ _ (item_token_classify _ _ _ E)). simpl.
  rewrite IH. reflexivity.
Qed.

(** X16.  A text gives at most as many tokens as it has characters, and
    the stream built on it can be advanced exactly as many times as the
    text has tokens.  So when the handlers of the table consume, [parse]
    on that stream finishes within a budget of twice the length of the
    text plus two. *)
Theorem token_count_bounds (text : string) :
  (List.length (tokenize text) <= String.length text)%nat
  /\ remaining (stream_of text) = List.length (tokenize text)
  /\ forall rule_map rbp fuel,
       handlers_consume rule_map ->
       (2 * String.length text + 2 <= fuel)%nat ->
       exists o ts', parse fuel rule_map rbp (stream_of text) = Some (o, ts').
Proof.
  assert (L : (List.length (tokenize text) <= String.length text)%nat).
  { unfold tokenize. rewrite (omap_good_length _ (findall_good text)).
    apply scan_length. }
  assert (R : remaining (stream_of text) = List.length (tokenize text)).
  { destruct (stream_of_cases text) as [[-> ->]|(pending & typ & v & G & -> & ->)].
    - reflexivity.
    - simpl. rewrite (omap_good_length _ G). reflexivity. }
  split; [exact L|]. split; [exact R|].
  intros rule_map rbp fuel H Hf.
  pose proof (parse_finishes rule_map H _ (stream_of text) rbp fuel eq_refl
                ltac:(lia)) as C.
  destruct (parse fuel rule_map rbp (stream_of text)) as [[o ts']|]; [|contradiction].
  exists o, ts'. reflexivity.
Qed.

Lemma token_count_bounds_witness :
  (List.length (tokenize "1+2*3") <= 5)%nat
  /\ remaining (stream_of "1+2*3") = 5%nat
  /\ exists o ts', parse 12 arith_rule_map 0 (stream_of "1+2*3") = Some (o, ts').
Proof.
  destruct (token_count_bounds "1+2*3") as (A & B & C).
  split; [exact A|]. split; [exact B|].
  apply (C arith_rule_map 0 12%nat arith_handlers_consume). simpl. lia.
Defined.

(** ** The exceptions that come out of [parse] *)

(** The call raises nothing but exceptions of the kind [P]. *)
Definition raises_only {A : Type} (P : exn -> Prop)
    (r : option (outcome A * TokenStream)) : Prop :=
  match r with
  | Some (Raise e, _) => P e
  | _ => True
  end.

(** A handler that raises nothing but [P], provided the recursive
    parser it is given raises nothing but [P]. *)
Definition nud_raises_only (P : exn -> Prop) (nud : Nud) : Prop :=
  forall (p : Parser) bp ts,
    (forall bp' ts', raises_only P (p bp' ts')) -> raises_only P (nud p bp ts).

Definition led_raises_only (P : exn -> Prop) (led : Led) : Prop :=
  forall (p : Parser) bp node ts,
    (forall bp' ts', raises_only P (p bp' ts')) -> raises_only P (led p bp node ts).

Lemma parse_raises_only_both (P : exn -> Prop) (rule_map : RuleMap) :
  (forall msg, P (ParseError msg)) ->
  handlers_satisfy (nud_raises_only P) (led_raises_only P) rule_map ->
  forall fuel,
    (forall rbp ts, raises_only P (parse fuel rule_map rbp ts))
    /\ (forall rbp node ts, raises_only P (parse_loop fuel rule_map rbp node ts)).
Proof.
  intros HP [Hn Hl]. induction fuel as [|fuel [IHp IHl]]; [split; intros; exact I|].
  split.
  - intros rbp ts. rewrite parse_unfold.
    destruct (String.eqb (type (current ts)) "eof"); [apply HP|].
    destruct (null rule_map !! type (current ts)) as [[nud bp]|] eqn:E; [|apply HP].
    pose proof (Hn _ _ _ E (parse fuel rule_map) bp ts IHp) as C.
    destruct (nud (parse fuel rule_map) bp ts) as [[[node|e] ts']|];
      [apply IHl|exact C|exact I].
  - intros rbp node ts. rewrite parse_loop_unfold.
    destruct (left rule_map !! type (current ts)) as [[[led lbp] rbp']|] eqn:E;
      [|apply HP].
    destruct (lbp <=? rbp)%Z; [exact I|].
    pose proof (Hl _ _ _ _ E (parse fuel rule_map) rbp' node ts IHp) as C.
    destruct (led (parse fuel rule_map) rbp' node ts) as [[[node'|e] ts']|];
      [apply IHl|exact C|exact I].
Qed.

(** X17.  [parse] raises no exception of its own but [ParseError]:
    whatever else comes out of it was raised by a handler.  If every
    handler of the table raises only exceptions of some kind, as long as
    its recursive calls do, and the kind includes every [ParseError],
    then [parse] raises only exceptions of that kind. *)
Theorem parse_raises_what_handlers_raise
    (P : exn -> Prop) (rule_map : RuleMap) (fuel : nat) (rbp : Z) (ts : TokenStream) :
  (forall msg, P (ParseError msg)) ->
  handlers_satisfy (nud_raises_only P) (led_raises_only P) rule_map ->
  forall e ts', parse fuel rule_map rbp ts = Some (Raise e, ts') -> P e.
Proof.
  intros HP H e ts' E.
  pose proof (proj1 (parse_raises_only_both P rule_map HP H fuel) rbp ts) as C.
  rewrite E in C. exact C.
Qed.

(** A table whose handlers raise nothing: the prefix handler returns
    the current token without advancing.  Every exception of [parse] on
    it is a [ParseError]. *)
Definition quiet_constant : Nud := fun _ _ ts => ret (mkNode (current ts) []) ts.

Definition quiet_rule_map : RuleMap :=
  build [ RegNull (-1) ["name"; "number"] quiet_constant ].

Definition is_parse_error (e : exn) : Prop := exists msg, e = ParseError msg.

Lemma parse_raises_what_handlers_raise_witness :
  parse 2 quiet_rule_map 0 (stream_of "+")
  = Some (Raise (ParseError "Unexpected token <Token + +>"), stream_of "+")
  /\ forall fuel rbp ts e ts',
       parse fuel quiet_rule_map rbp ts = Some (Raise e, ts') -> is_parse_error e.
Proof.
  split; [reflexivity|].
  intros fuel rbp ts.
  apply (parse_raises_what_handlers_raise is_parse_error quiet_rule_map fuel rbp ts).
  - intros msg. exists msg. reflexivity.
  - apply handlers_satisfy_build.
    + intros p bp ts0 _. eexists. reflexivity.
    + intros p bp node ts0 _. eexists. reflexivity.
    + repeat constructor.
Defined.
